(** * DBManager: a shallow embedding of [src/db_manager.py]

    The module is a thin data-access object over two PostgreSQL tables.
    The embedding has three layers, each following the source:

    - [Py]: the Python values the methods receive (loosely structured
      records coming from an upstream JSON feed), with truthiness, [dict.get],
      subscripting and [or];
    - [Sql]: the two tables of [create_tables], the conversion of the
      parameters of a statement into column values, and the evaluation of the
      statements that the methods send through [cursor.execute];
    - [DBManager]: the methods themselves, as functions on a world made of
      the database and of the standard output stream.

    Floating-point numbers and lists are left out of the value universe.
    A string is the UTF-8 bytes of its text. The [numeric] result of [AVG]
    is a decimal fraction, held as a rational in lowest terms. Where a
    statement leaves the order of its rows open, the order is a parameter
    of the call. *)

From Stdlib Require Import ZArith QArith Ascii String List Lia.
From stdpp Require Import base option list gmap strings pretty.

Set Warnings "-register-all".

Local Open Scope string_scope.
Local Open Scope Z_scope.

(** ** Python values *)

Module Py.

(** The values found in a decoded JSON record, floats and arrays excepted. *)
Inductive pyval : Type :=
  | PyNone
  | PyBool (b : bool)
  | PyInt (n : Z)
  | PyStr (s : string)
  | PyDict (d : gmap string pyval).

Abbreviation dict := (gmap string pyval).

(** Truth value testing, as used by [or]. *)
Definition truthy (v : pyval) : bool :=
  match v with
  | PyNone => false
  | PyBool b => b
  | PyInt n => negb (Z.eqb n 0)
  | PyStr s => negb (String.eqb s EmptyString)
  | PyDict d => negb (Nat.eqb (size d) 0)
  end.

(** [d.get(key)]: the value, or [None] when the key is absent. *)
Definition get (d : dict) (key : string) : pyval :=
  default PyNone (d !! key).

(** [x or y]. *)
Definition por (x y : pyval) : pyval :=
  if truthy x then x else y.

(** [key in d]. *)
Definition contains (d : dict) (key : string) : bool :=
  bool_decide (is_Some (d !! key)).

(** Exceptions that reach the methods of the class. The errors of the
    database carry the class of the SQLSTATE. *)
Inductive sqlerror : Type :=
  | NotNullViolation
  | UniqueViolation
  | ForeignKeyViolation
  | NumericValueOutOfRange
  | StringDataRightTruncation
  | InvalidTextRepresentation
  | DatatypeMismatch
  | DivisionByZero
  | InvalidEscapeSequence.

Inductive exn : Type :=
  | KeyError (key : string)
  | AttributeError (attr : string)
  | AdaptError                       (* psycopg2 cannot render a parameter *)
  | DatabaseError (e : sqlerror).

(** The result of evaluating an expression or a call: a value, or an
    exception on its way up. *)
Inductive outcome (A : Type) : Type :=
  | Returned (a : A)
  | Raised (e : exn).
Arguments Returned {A} a.
Arguments Raised {A} e.

#[export] Instance outcome_ret : MRet outcome := @Returned.
#[export] Instance outcome_bind : MBind outcome := fun A B f o =>
  match o with
  | Returned a => f a
  | Raised e => Raised e
  end.
#[export] Instance outcome_fmap : FMap outcome := fun A B f o =>
  match o with
  | Returned a => Returned (f a)
  | Raised e => Raised e
  end.

(** [d[key]]. *)
Definition getitem (d : dict) (key : string) : outcome pyval :=
  match d !! key with
  | Some v => Returned v
  | None => Raised (KeyError key)
  end.

End Py.

(** ** The database *)

Module Sql.
Import Py.

(** *** Tables ([create_tables]) *)

(** [companies(id INT PRIMARY KEY, name VARCHAR(255) UNIQUE NOT NULL, url TEXT)] *)
Record company_row : Type := {
  c_id : Z;
  c_name : string;
  c_url : option string
}.

(** [vacancies(id INT PRIMARY KEY, company_id INT REFERENCES companies(id),
    name VARCHAR(255), salary_from INT, salary_to INT, currency VARCHAR(10),
    url TEXT)]; every column but the key is nullable. *)
Record vacancy_row : Type := {
  v_id : Z;
  v_company_id : option Z;
  v_name : option string;
  v_salary_from : option Z;
  v_salary_to : option Z;
  v_currency : option string;
  v_url : option string
}.

(** Rows are kept in insertion order. *)
Record database : Type := {
  companies : list company_row;
  vacancies : list vacancy_row
}.

Definition empty_db : database := {| companies := []; vacancies := [] |}.

(** The primary keys: no identifier occurs in two rows of a table. *)
Definition wf (d : database) : Prop :=
  NoDup (map c_id (companies d)) ∧ NoDup (map v_id (vacancies d)).

Definition has_company (i : Z) (d : database) : bool :=
  existsb (fun r => Z.eqb (c_id r) i) (companies d).

Definition has_company_name (nm : string) (d : database) : bool :=
  existsb (fun r => String.eqb (c_name r) nm) (companies d).

Definition has_vacancy (i : Z) (d : database) : bool :=
  existsb (fun r => Z.eqb (v_id r) i) (vacancies d).

(** Number of rows of a table that carry an identifier. *)
Definition count_companies (i : Z) (d : database) : nat :=
  length (filter (fun r => c_id r = i) (companies d)).

Definition count_vacancies (i : Z) (d : database) : nat :=
  length (filter (fun r => v_id r = i) (vacancies d)).

(** *** Parameters

    psycopg2 renders each Python parameter as an SQL literal on the client;
    the server then converts the literal to the type of the column it is
    assigned to. *)

Inductive literal : Type :=
  | LNull
  | LBool (b : bool)
  | LNum (n : Z)
  | LStr (s : string).

Fixpoint has_nul (s : string) : bool :=
  match s with
  | EmptyString => false
  | String c s' => Ascii.eqb c Ascii.zero || has_nul s'
  end.

(** A dict has no adapter, and a string with a NUL character is refused. *)
Definition adapt (v : pyval) : outcome literal :=
  match v with
  | PyNone => Returned LNull
  | PyBool b => Returned (LBool b)
  | PyInt n => Returned (LNum n)
  | PyStr s => if has_nul s then Raised AdaptError else Returned (LStr s)
  | PyDict _ => Raised AdaptError
  end.

Definition int4_min : Z := -2147483648.
Definition int4_max : Z := 2147483647.

Definition in_int4 (n : Z) : bool := (int4_min <=? n) && (n <=? int4_max).

Definition sqlfail {A : Type} (e : sqlerror) : outcome A :=
  Raised (DatabaseError e).

Definition int4_range (n : Z) : outcome Z :=
  if in_int4 n then Returned n else sqlfail NumericValueOutOfRange.

(** Integer input from text, as PostgreSQL 16 reads it: blanks, an
    optional sign, then decimal digits, or hexadecimal, octal or binary
    digits after [0x], [0o] or [0b]; single underscores may separate
    digits; blanks may follow. A value that outgrows the type while its
    digits are read is out of range at once. *)
Definition is_space (c : ascii) : bool :=
  let n := nat_of_ascii c in
  Nat.eqb n 32 || (Nat.leb 9 n && Nat.leb n 13).

(** The value of a character as a digit of a base up to 16. *)
Definition digit_in (base : Z) (c : ascii) : option Z :=
  let n := Z.of_nat (nat_of_ascii c) in
  let v := if (48 <=? n) && (n <=? 57) then Some (n - 48)
           else if (97 <=? n) && (n <=? 102) then Some (n - 87)
           else if (65 <=? n) && (n <=? 70) then Some (n - 55)
           else None in
  match v with
  | Some d => if d <? base then Some d else None
  | None => None
  end.

Fixpoint skip_spaces (s : string) : string :=
  match s with
  | String c s' => if is_space c then skip_spaces s' else s
  | EmptyString => s
  end.

Definition starts_with_digit (base : Z) (s : string) : bool :=
  match s with
  | String c _ => bool_decide (is_Some (digit_in base c))
  | EmptyString => false
  end.

(** Reads the digits and separators of a number in a base. [first] tells
    that nothing has been read yet, [strict] that a separator may not come
    first. Returns the magnitude, whether nothing was read, and what
    follows. *)
Fixpoint read_number (base : Z) (strict first : bool) (acc : Z) (s : string)
  : outcome (Z * bool * string) :=
  match s with
  | String c s' =>
      match digit_in base c with
      | Some d =>
          if acc >? 2147483648 / base then sqlfail NumericValueOutOfRange
          else read_number base strict false (acc * base + d) s'
      | None =>
          if Ascii.eqb c "_" then
            if strict && first then sqlfail InvalidTextRepresentation
            else if starts_with_digit base s'
                 then read_number base strict false acc s'
                 else sqlfail InvalidTextRepresentation
          else Returned (acc, first, s)
      end
  | EmptyString => Returned (acc, first, s)
  end.

(** The base that a prefix announces, and what follows the prefix. *)
Definition number_base (s : string) : Z * bool * string :=
  match s with
  | String "0" (String c r) =>
      if Ascii.eqb c "x" || Ascii.eqb c "X" then (16, false, r)
      else if Ascii.eqb c "o" || Ascii.eqb c "O" then (8, false, r)
      else if Ascii.eqb c "b" || Ascii.eqb c "B" then (2, false, r)
      else (10, true, s)
  | _ => (10, true, s)
  end.

Definition int4in (s : string) : outcome Z :=
  let s1 := skip_spaces s in
  let '(neg, s2) :=
    match s1 with
    | String "-" r => (true, r)
    | String "+" r => (false, r)
    | _ => (false, s1)
    end in
  let '(base, strict, s3) := number_base s2 in
  '(n, nothing, rest) ← read_number base strict true 0 s3;
  if (nothing : bool) then sqlfail InvalidTextRepresentation
  else
    match skip_spaces rest with
    | EmptyString => int4_range (if neg then - n else n)
    | _ => sqlfail InvalidTextRepresentation
    end.

(** Assignment to an [INT] column. *)
Definition to_int4 (l : literal) : outcome (option Z) :=
  match l with
  | LNull => Returned None
  | LBool _ => sqlfail DatatypeMismatch
  | LNum n => Some <$> int4_range n
  | LStr s => Some <$> int4in s
  end.

(** Assignment to a [TEXT] column: numbers and booleans are written out. *)
Definition to_text (l : literal) : option string :=
  match l with
  | LNull => None
  | LBool b => Some (if b then "true" else "false")
  | LNum n => Some (pretty n)
  | LStr s => Some s
  end.

Fixpoint all_spaces (s : string) : bool :=
  match s with
  | EmptyString => true
  | String c s' => Ascii.eqb c " " && all_spaces s'
  end.

(** Strings are the UTF-8 bytes of the text. A byte of the form 10xxxxxx
    continues the character that the bytes before it began. *)
Definition is_continuation (c : ascii) : bool :=
  let n := nat_of_ascii c in
  Nat.leb 128 n && Nat.ltb n 192.

(** The first [n] characters of a string, and what follows them. *)
Fixpoint clip_chars (n : nat) (s : string) : string * string :=
  match s with
  | EmptyString => (EmptyString, EmptyString)
  | String c s' =>
      if is_continuation c then
        let '(a, b) := clip_chars n s' in (String c a, b)
      else
        match n with
        | O => (EmptyString, s)
        | S n' => let '(a, b) := clip_chars n' s' in (String c a, b)
        end
  end.

(** [VARCHAR(n)]: a string of at most [n] bytes is taken as it is; a
    longer one is cut after [n] characters, and it is an error when what
    is cut off is not all blanks. *)
Definition varchar_fit (n : nat) (s : string) : outcome string :=
  if Nat.leb (String.length s) n then Returned s
  else let '(a, b) := clip_chars n s in
       if all_spaces b then Returned a
       else sqlfail StringDataRightTruncation.

Definition to_varchar (n : nat) (l : literal) : outcome (option string) :=
  match to_text l with
  | None => Returned None
  | Some s => Some <$> varchar_fit n s
  end.

(** The value a parameter takes in an [INT] or a [VARCHAR(n)] column. *)
Definition as_int4 (p : pyval) : outcome (option Z) :=
  l ← adapt p; to_int4 l.

Definition as_varchar (n : nat) (p : pyval) : outcome (option string) :=
  l ← adapt p; to_varchar n l.

(** The identifier that a parameter denotes in an [INT] key column, when it
    denotes one. *)
Definition ident (p : pyval) : option Z :=
  match as_int4 p with
  | Returned o => o
  | Raised _ => None
  end.

(** A [NOT NULL] column. *)
Definition not_null {A : Type} (o : option A) : outcome A :=
  match o with
  | Some a => Returned a
  | None => sqlfail NotNullViolation
  end.

(** *** The statements of the writers *)

(** [INSERT INTO companies (id, name, url) VALUES (%s, %s, %s)
     ON CONFLICT (id) DO NOTHING].
    The parameters are rendered, then converted; the [NOT NULL] constraints
    are checked before the arbiter index, the other unique index after. *)
Definition insert_company_stmt (p_id p_name p_url : pyval) (d : database)
  : outcome database :=
  l_id ← adapt p_id;
  l_name ← adapt p_name;
  l_url ← adapt p_url;
  o_id ← to_int4 l_id;
  o_name ← to_varchar 255 l_name;
  i ← not_null o_id;
  nm ← not_null o_name;
  if has_company i d then Returned d
  else if has_company_name nm d then sqlfail UniqueViolation
  else Returned {| companies := companies d ++
                     [{| c_id := i; c_name := nm; c_url := to_text l_url |}];
                   vacancies := vacancies d |}.

(** [INSERT INTO vacancies (id, company_id, name, salary_from, salary_to,
     currency, url) VALUES (%s, %s, %s, %s, %s, %s, %s)
     ON CONFLICT (id) DO NOTHING].
    The reference to [companies] is checked when a row is really added. *)
Definition insert_vacancy_stmt
    (p_id p_company p_name p_from p_to p_currency p_url : pyval) (d : database)
  : outcome database :=
  l_id ← adapt p_id;
  l_company ← adapt p_company;
  l_name ← adapt p_name;
  l_from ← adapt p_from;
  l_to ← adapt p_to;
  l_currency ← adapt p_currency;
  l_url ← adapt p_url;
  o_id ← to_int4 l_id;
  o_company ← to_int4 l_company;
  o_name ← to_varchar 255 l_name;
  o_from ← to_int4 l_from;
  o_to ← to_int4 l_to;
  o_currency ← to_varchar 10 l_currency;
  i ← not_null o_id;
  if has_vacancy i d then Returned d
  else if match o_company with
          | Some c => has_company c d
          | None => true
          end
  then Returned {| companies := companies d;
                   vacancies := vacancies d ++
                     [{| v_id := i; v_company_id := o_company; v_name := o_name;
                         v_salary_from := o_from; v_salary_to := o_to;
                         v_currency := o_currency; v_url := to_text l_url |}] |}
  else sqlfail ForeignKeyViolation.

(** *** The statements of the readers *)

(** What the salary queries and the keyword query select:
    [name, salary_from, salary_to, url]. *)
Definition vacancy_tuple : Type :=
  option string * option Z * option Z * option string.

Definition tuple_of (r : vacancy_row) : vacancy_tuple :=
  (v_name r, v_salary_from r, v_salary_to r, v_url r).

(** [+] and [/] on [INT]: strict in NULL, checked for overflow, the
    quotient truncated toward zero. *)
Definition int4_add (a b : option Z) : outcome (option Z) :=
  match a, b with
  | Some x, Some y => Some <$> int4_range (x + y)
  | _, _ => Returned None
  end.

Definition int4_div (a b : option Z) : outcome (option Z) :=
  match a, b with
  | Some x, Some y =>
      if y =? 0 then sqlfail DivisionByZero
      else Some <$> int4_range (Z.quot x y)
  | _, _ => Returned None
  end.

(** [(salary_from + salary_to) / 2] *)
Definition midpoint (r : vacancy_row) : outcome (option Z) :=
  s ← int4_add (v_salary_from r) (v_salary_to r);
  int4_div s (Some 2).

(** [WHERE]: the rows on which the condition is true, NULL counting as not
    true; an error on any row fails the statement. *)
Fixpoint select_where {A : Type} (cond : A → outcome (option bool))
    (rows : list A) : outcome (list A) :=
  match rows with
  | [] => Returned []
  | r :: rows' =>
      c ← cond r;
      rest ← select_where cond rows';
      Returned (match c with Some true => r :: rest | _ => rest end)
  end.

(** The select list, row by row. *)
Fixpoint project {A B : Type} (f : A → outcome B) (rows : list A)
  : outcome (list B) :=
  match rows with
  | [] => Returned []
  | r :: rows' => b ← f r; rest ← project f rows'; Returned (b :: rest)
  end.

Definition sumZ (l : list Z) : Z := fold_right Z.add 0 l.

(** The division of one [numeric] integer by another.

    A [numeric] holds its digits in base 10000. The number of decimals of
    a quotient is chosen from the positions and values of the leading
    digits of both operands so that the quotient has 16 significant
    digits at least; the quotient is rounded to that many decimals, a
    half going away from zero. *)

(** The position and the value of the leading base-10000 digit. *)
Fixpoint leading_digit (fuel : nat) (x weight : Z) : Z * Z :=
  match fuel with
  | O => (weight, x)
  | S fuel' =>
      if x <? 10000 then (weight, x)
      else leading_digit fuel' (x / 10000) (weight + 1)
  end.

Definition numeric_top (x : Z) : Z * Z :=
  leading_digit (S (Z.to_nat (Z.log2 (Z.abs x)))) (Z.abs x) 0.

Definition div_scale (x y : Z) : Z :=
  let '(weight1, first1) := numeric_top x in
  let '(weight2, first2) := numeric_top y in
  let qweight := weight1 - weight2 - (if first1 <=? first2 then 1 else 0) in
  Z.min 1000 (Z.max 0 (16 - qweight * 4)).

(** [x / y] to the nearest integer, a half going away from zero; [y] is
    positive. *)
Definition round_div (x y : Z) : Z :=
  if 0 <=? x then (2 * x + y) / (2 * y)
  else - ((2 * (- x) + y) / (2 * y)).

(** The quotient as a number of units of its last decimal, and its
    value. *)
Definition numeric_div_units (x y : Z) : Z :=
  round_div (x * 10 ^ div_scale x y) y.

Definition numeric_div (x y : Z) : Q :=
  Qred (numeric_div_units x y # Z.to_pos (10 ^ div_scale x y)).

(** [AVG] over integers: NULL inputs are skipped, no input gives NULL, and
    the result is the [numeric] quotient of the sum by the count. *)
Definition avg (l : list (option Z)) : option Q :=
  match omap id l with
  | [] => None
  | x :: xs =>
      Some (numeric_div (sumZ (x :: xs)) (Z.of_nat (length (x :: xs))))
  end.

(** [salary_from IS NOT NULL AND salary_to IS NOT NULL] *)
Definition both_bounds (r : vacancy_row) : outcome (option bool) :=
  Returned (Some (bool_decide (is_Some (v_salary_from r))
                  && bool_decide (is_Some (v_salary_to r)))).

(** [SELECT AVG((salary_from + salary_to) / 2) FROM vacancies
     WHERE salary_from IS NOT NULL AND salary_to IS NOT NULL] *)
Definition select_avg_stmt (d : database) : outcome (option Q) :=
  rows ← select_where both_bounds (vacancies d);
  ms ← project midpoint rows;
  Returned (avg ms).

Definition Qlt_bool (a b : Q) : bool := negb (Qle_bool b a).

(** [x > p] between an integer and a [numeric] parameter. *)
Definition gt_numeric (x : option Z) (p : option Q) : option bool :=
  match x, p with
  | Some m, Some q => Some (Qlt_bool q (inject_Z m))
  | _, _ => None
  end.

(** [SELECT name, salary_from, salary_to, url FROM vacancies
     WHERE ((salary_from + salary_to) / 2) > %s] *)
Definition select_higher_stmt (p : option Q) (d : database)
  : outcome (list vacancy_tuple) :=
  rows ← select_where (fun r => m ← midpoint r; Returned (gt_numeric m p))
                      (vacancies d);
  Returned (map tuple_of rows).

(** *** Pattern matching: [ILIKE]

    In a pattern [%] stands for any run of characters, [_] for any one
    character (all the bytes of it), and a backslash makes the next
    character stand for itself; a pattern may not end with a lone
    backslash. A run of characters is matched as a run of bytes: the text
    of a pattern never begins inside a character, so that what follows a
    [%] finds its place at the beginning of one.

    [ILIKE] compares letters without regard to case, and which letters
    have a case is for the locale of the database to say. [lower] is the
    fold of the letters A to Z, which is all that the locale C folds;
    under it a letter beyond ASCII matches itself only. A database in
    another locale folds more letters, so what is proved of an answer from
    the fold holds of such a database for text in ASCII. *)

Inductive tok : Type :=
  | TAny
  | TOne
  | TLit (c : ascii).

Fixpoint parse_like (p : string) : option (list tok) :=
  match p with
  | EmptyString => Some []
  | String "%" p' => cons TAny <$> parse_like p'
  | String "_" p' => cons TOne <$> parse_like p'
  | String "\" p' =>
      match p' with
      | EmptyString => None
      | String c p'' => cons (TLit c) <$> parse_like p''
      end
  | String c p' => cons (TLit c) <$> parse_like p'
  end.

Definition lower (c : ascii) : ascii :=
  let n := nat_of_ascii c in
  if Nat.leb 65 n && Nat.leb n 90 then ascii_of_nat (n + 32) else c.

Definition eq_nocase (a b : ascii) : bool := Ascii.eqb (lower a) (lower b).

(** What is left of a string after the bytes that continue a character. *)
Fixpoint skip_continuation (s : string) : string :=
  match s with
  | String c s' => if is_continuation c then skip_continuation s' else s
  | EmptyString => s
  end.

Fixpoint like_match (ts : list tok) : string → bool :=
  match ts with
  | [] => fun s => match s with EmptyString => true | _ => false end
  | TLit c :: ts' => fun s =>
      match s with
      | String c' s' => eq_nocase c c' && like_match ts' s'
      | EmptyString => false
      end
  | TOne :: ts' => fun s =>
      match s with
      | String _ s' => like_match ts' (skip_continuation s')
      | EmptyString => false
      end
  | TAny :: ts' =>
      fix star (s : string) : bool :=
        like_match ts' s ||
        match s with
        | String _ s' => star s'
        | EmptyString => false
        end
  end.

(** [name ILIKE pattern]; NULL when the name is NULL. *)
Definition ilike (name : option string) (pattern : string)
  : outcome (option bool) :=
  match name with
  | None => Returned None
  | Some s =>
      match parse_like pattern with
      | Some ts => Returned (Some (like_match ts s))
      | None => sqlfail InvalidEscapeSequence
      end
  end.

(** [SELECT name, salary_from, salary_to, url FROM vacancies
     WHERE name ILIKE %s] *)
Definition select_keyword_stmt (p : pyval) (d : database)
  : outcome (list vacancy_tuple) :=
  l ← adapt p;
  match l with
  | LStr pattern =>
      rows ← select_where (fun r => ilike (v_name r) pattern) (vacancies d);
      Returned (map tuple_of rows)
  | _ => sqlfail DatatypeMismatch
  end.

(** *** The statements of the two joins *)

(** [c.id = v.company_id]: true on a reference that is not NULL and
    equals the identifier. *)
Definition references (v : vacancy_row) (c : company_row) : bool :=
  match v_company_id v with
  | Some i => c_id c =? i
  | None => false
  end.

(** [companies c LEFT JOIN vacancies v ON c.id = v.company_id]: every
    company with each of its vacancies, or once with no vacancy. *)
Definition left_join (d : database)
  : list (company_row * option vacancy_row) :=
  flat_map
    (fun c =>
       match List.filter (fun v => references v c) (vacancies d) with
       | [] => [(c, None)]
       | vs => map (fun v => (c, Some v)) vs
       end)
    (companies d).

(** [COUNT(v.id)] in the group of a name: the joined rows of that name
    whose vacancy side is not NULL. *)
Definition count_in_group (nm : string)
    (joined : list (company_row * option vacancy_row)) : Z :=
  Z.of_nat
    (length (List.filter
               (fun j => String.eqb (c_name (fst j)) nm
                         && bool_decide (is_Some (snd j)))
               joined)).

(** A statement without [ORDER BY] leaves the order of its rows to the
    server, which may choose it anew for every execution. An [order] is
    one such choice: the rows that go in come out, each as often as it
    went in, in some order. *)
Record order (A : Type) : Type := Order {
  arrange : list A → list A;
  arrange_perm : ∀ l : list A, arrange l ≡ₚ l
}.
Arguments Order {A} _ _.
Arguments arrange {A} _ _.
Arguments arrange_perm {A} _ _.

(** Two choices: the rows as the model computes them, and the other way
    round. *)
Definition as_computed {A : Type} : order A :=
  Order (fun l => l) (fun l => Permutation_refl l).

Definition backwards {A : Type} : order A :=
  Order (@rev A) (fun l => Permutation_sym (Permutation_rev l)).

(** [SELECT c.name, COUNT(v.id) FROM companies c
     LEFT JOIN vacancies v ON c.id = v.company_id GROUP BY c.name]:
    one row per distinct name, in the order that the server chooses. *)
Definition select_counts_stmt (plan : order (string * Z)) (d : database)
  : outcome (list (string * Z)) :=
  let joined := left_join d in
  Returned
    (arrange plan
       (map (fun nm => (nm, count_in_group nm joined))
            (remove_dups (map (fun j => c_name (fst j)) joined)))).

(** What the join of vacancies and companies selects:
    [c.name, v.name, v.salary_from, v.salary_to, v.url]. *)
Definition listing_tuple : Type :=
  string * option string * option Z * option Z * option string.

Definition listing_of (c : company_row) (v : vacancy_row) : listing_tuple :=
  (c_name c, v_name v, v_salary_from v, v_salary_to v, v_url v).

(** [SELECT c.name, v.name, v.salary_from, v.salary_to, v.url
     FROM vacancies v JOIN companies c ON v.company_id = c.id]: one row
    for every pair of a vacancy and a company that it refers to, in the
    order that the server chooses. *)
Definition select_all_stmt (plan : order listing_tuple) (d : database)
  : outcome (list listing_tuple) :=
  Returned
    (arrange plan
       (flat_map
          (fun v => map (fun c => listing_of c v)
                        (List.filter (references v) (companies d)))
          (vacancies d))).

End Sql.

(** ** The class *)

Module DBManager.
Import Py Sql.

(** What [print] writes in [insert_vacancy]: the line with the error and
    the line with the record. *)
Inductive line : Type :=
  | ErrorLine (e : exn)
  | VacancyLine (vacancy : dict).

(** The connection is in autocommit mode: the database is the committed
    state. *)
Record world : Type := {
  db : database;
  stdout : list line
}.

Definition M (A : Type) : Type := world → outcome A * world.

#[export] Instance M_ret : MRet M := fun A a w => (Returned a, w).
#[export] Instance M_bind : MBind M := fun A B f m w =>
  match m w with
  | (Returned a, w') => f a w'
  | (Raised e, w') => (Raised e, w')
  end.

Definition lift {A : Type} (o : outcome A) : M A := fun w => (o, w).

Definition print (l : line) : M unit := fun w =>
  (Returned tt, {| db := db w; stdout := stdout w ++ [l] |}).

(** [try: body except Exception as e: handler(e)] *)
Definition try_except {A : Type} (body : M A) (handler : exn → M A) : M A :=
  fun w =>
    match body w with
    | (Returned a, w') => (Returned a, w')
    | (Raised e, w') => handler e w'
    end.

(** [cursor.execute] of a writing statement inside [with self.connection]:
    committed on success, without effect when the statement fails. *)
Definition execute (stmt : database → outcome database) : M unit := fun w =>
  match stmt (db w) with
  | Returned d' => (Returned tt, {| db := d'; stdout := stdout w |})
  | Raised e => (Raised e, w)
  end.

(** [cursor.execute] of a [SELECT] followed by a fetch. *)
Definition query {A : Type} (stmt : database → outcome A) : M A := fun w =>
  (stmt (db w), w).

(** [v.get(key)] on a value that may not be a dict. *)
Definition attr_get (v : pyval) (key : string) : outcome pyval :=
  match v with
  | PyDict d => Returned (get d key)
  | _ => Raised (AttributeError "get")
  end.

Definition insert_company (company : dict) : M unit :=
  p_id ← lift (getitem company "id");
  p_name ← lift (getitem company "name");
  p_url ← lift (getitem company "alternate_url");
  execute (insert_company_stmt p_id p_name p_url).

Definition required_keys : list string := ["id"; "name"; "alternate_url"].

Definition insert_vacancy (vacancy : dict) (company_id : pyval) : M unit :=
  if negb (forallb (contains vacancy) required_keys) then mret tt
  else
    let salary := por (get vacancy "salary") (PyDict ∅) in
    v_from ← lift (attr_get salary "from");
    let salary_from := por v_from (PyInt 0) in
    v_to ← lift (attr_get salary "to");
    let salary_to := por v_to (PyInt 0) in
    v_currency ← lift (attr_get salary "currency");
    let currency := por v_currency (PyStr "RUR") in
    try_except
      (p_id ← lift (getitem vacancy "id");
       p_name ← lift (getitem vacancy "name");
       p_url ← lift (getitem vacancy "alternate_url");
       execute (insert_vacancy_stmt p_id company_id p_name
                  salary_from salary_to currency p_url))
      (fun e =>
         _ ← print (ErrorLine e);
         print (VacancyLine vacancy)).

Definition get_avg_salary : M (option Q) :=
  query select_avg_stmt.

Definition get_vacancies_with_higher_salary : M (list vacancy_tuple) :=
  avg_salary ← get_avg_salary;
  query (select_higher_stmt avg_salary).

Definition get_vacancies_with_keyword (keyword : string)
  : M (list vacancy_tuple) :=
  query (select_keyword_stmt (PyStr ("%" +:+ keyword +:+ "%"))).

(** The two joins have no [ORDER BY]; the order in which the server gives
    the rows of a call is a parameter of the call. *)
Definition get_companies_and_vacancies_count (plan : order (string * Z))
  : M (list (string * Z)) :=
  query (select_counts_stmt plan).

Definition get_all_vacancies (plan : order listing_tuple)
  : M (list listing_tuple) :=
  query (select_all_stmt plan).

(** The world after [__init__] on a fresh database. *)
Definition init : world := {| db := empty_db; stdout := [] |}.

End DBManager.

(** * Properties *)

Import Py Sql DBManager.

(** ** Sample records *)

Definition acme : dict :=
  <["id" := PyInt 1]> (<["name" := PyStr "Acme"]>
  (<["alternate_url" := PyStr "http://acme"]> ∅)).

Definition salary_usd : dict :=
  <["from" := PyInt 1000]> (<["to" := PyInt 2000]>
  (<["currency" := PyStr "USD"]> ∅)).

Definition engineer : dict :=
  <["id" := PyInt 10]> (<["name" := PyStr "Engineer"]>
  (<["alternate_url" := PyStr "http://acme/10"]>
  (<["salary" := PyDict salary_usd]> ∅))).

(** A vacancy without a name. *)
Definition nameless : dict :=
  <["id" := PyInt 10]> (<["alternate_url" := PyStr "http://acme/10"]> ∅).

(** A vacancy whose salary is a piece of text. *)
Definition negotiable : dict :=
  <["salary" := PyStr "negotiable"]> engineer.

(** A vacancy with a lower bound only. *)
Definition from_only : dict :=
  <["salary" := PyDict (<["from" := PyInt 1000]> ∅)]> engineer.

(** A vacancy whose currency is the empty string. *)
Definition blank_currency : dict :=
  <["salary" := PyDict (<["currency" := PyStr EmptyString]> salary_usd)]>
    engineer.

(** A vacancy whose bounds are each an [INT] while their sum is not. *)
Definition top_salary : dict :=
  <["salary" := PyDict (<["from" := PyInt 2147483647]>
                       (<["to" := PyInt 1]> ∅))]> engineer.

(** The world after the company has been written. *)
Definition with_acme : world := snd (insert_company acme init).

(** Two more vacancies, with midpoints 3500 and 2500. *)
Definition senior : dict :=
  <["id" := PyInt 11]> (<["name" := PyStr "SENIOR ENGINEER"]>
  (<["alternate_url" := PyStr "http://acme/11"]>
  (<["salary" := PyDict (<["from" := PyInt 3000]>
                        (<["to" := PyInt 4000]> ∅))]> ∅))).

Definition analyst : dict :=
  <["id" := PyInt 12]> (<["name" := PyStr "abc"]>
  (<["alternate_url" := PyStr "http://acme/12"]>
  (<["salary" := PyDict (<["from" := PyInt 2000]>
                        (<["to" := PyInt 3001]> ∅))]> ∅))).

(** The world with the three vacancies of the company: the midpoints are
    1500, 3500 and 2500 (the quotient of 5001 by 2), and their mean is
    2500. *)
Definition staffed : world :=
  snd (insert_vacancy analyst (PyInt 1)
    (snd (insert_vacancy senior (PyInt 1)
      (snd (insert_vacancy engineer (PyInt 1) with_acme))))).

(** The world with the vacancy of bounds 2000 and 3001 alone. *)
Definition intern : dict :=
  {[ "id" := PyInt 13; "name" := PyStr "Intern";
     "alternate_url" := PyStr "http://acme/13";
     "salary" := PyDict {[ "from" := PyInt 400; "to" := PyInt 600;
                           "currency" := PyStr "RUR" ]} ]}.

(** Three vacancies whose midpoints add up to 5500. *)
Definition thirds : world :=
  snd (insert_vacancy intern (PyInt 1)
         (snd (insert_vacancy senior (PyInt 1)
                 (snd (insert_vacancy engineer (PyInt 1) with_acme))))).

Definition odd_sum : world :=
  snd (insert_vacancy analyst (PyInt 1) with_acme).

(** A table written by another client, with a row that has no upper
    bound. *)
Definition open_ended : world :=
  {| db := {| companies := companies (db with_acme);
              vacancies := [{| v_id := 20; v_company_id := Some 1;
                               v_name := Some "Intern";
                               v_salary_from := Some 100;
                               v_salary_to := None;
                               v_currency := None;
                               v_url := None |}] |};
     stdout := [] |}.

(** ** The results in mathematical terms *)

(** The midpoint of a row with both bounds: the integer quotient of their
    sum by 2, rounded toward zero. *)
Definition midpoint_of (r : vacancy_row) : option Z :=
  match v_salary_from r, v_salary_to r with
  | Some a, Some b => Some (Z.quot (a + b) 2)
  | _, _ => None
  end.

(** Both bounds of a row are there. *)
Definition both (r : vacancy_row) : bool :=
  bool_decide (is_Some (v_salary_from r))
  && bool_decide (is_Some (v_salary_to r)).

(** The midpoints of the rows that have both bounds, in table order. *)
Definition midpoints (rows : list vacancy_row) : list Z :=
  omap midpoint_of rows.

(** The sum of the bounds of a row is an [INT]. *)
(** [q] is [s / n] rounded to [k] decimals: a number of units of the
    [k]-th decimal, as near to the quotient as such a number can be, and
    the one away from zero when the quotient lies half way between two. *)
Definition rounded (s n k : Z) (q : Q) : Prop :=
  ∃ u : Z,
    (q == u # Z.to_pos (10 ^ k))%Q
    ∧ 2 * Z.abs (u * n - s * 10 ^ k) ≤ n
    ∧ (2 * Z.abs (u * n - s * 10 ^ k) = n
       → Z.abs (s * 10 ^ k) < Z.abs (u * n)).

Definition sum_fits (r : vacancy_row) : Prop :=
  ∀ a b, v_salary_from r = Some a → v_salary_to r = Some b →
         int4_min ≤ a + b ≤ int4_max.

(** The midpoint of a row lies strictly above an average. *)
Definition above (average : option Q) (r : vacancy_row) : bool :=
  match midpoint_of r, average with
  | Some m, Some q => Qlt_bool q (inject_Z m)
  | _, _ => false
  end.

(** Letters folded to lower case along a string. *)
Fixpoint lower_string (s : string) : string :=
  match s with
  | EmptyString => EmptyString
  | String c s' => String (lower c) (lower_string s')
  end.

(** The keyword stands at the head of a name, case apart. *)
Fixpoint prefix_nocase (k s : string) : bool :=
  match k, s with
  | EmptyString, _ => true
  | String a k', String b s' => eq_nocase a b && prefix_nocase k' s'
  | String _ _, EmptyString => false
  end.

(** The keyword occurs in a name, case apart. *)
Fixpoint occurs_nocase (k s : string) : bool :=
  prefix_nocase k s ||
  match s with
  | String _ s' => occurs_nocase k s'
  | EmptyString => false
  end.

(** The rows whose name has the keyword in it. *)
Definition named_like (keyword : string) (r : vacancy_row) : bool :=
  match v_name r with
  | Some s => occurs_nocase keyword s
  | None => false
  end.

(** Characters without a meaning of their own in a pattern or for the
    driver. *)
Definition plain (c : ascii) : bool :=
  negb (Ascii.eqb c "%" || Ascii.eqb c "_" || Ascii.eqb c "\"
        || Ascii.eqb c Ascii.zero).

Fixpoint plain_string (s : string) : bool :=
  match s with
  | EmptyString => true
  | String c s' => plain c && plain_string s'
  end.

(** Text in ASCII, and rows whose names are such text. *)
Fixpoint ascii_text (s : string) : bool :=
  match s with
  | EmptyString => true
  | String c s' => Nat.ltb (nat_of_ascii c) 128 && ascii_text s'
  end.

Definition ascii_named (r : vacancy_row) : bool :=
  match v_name r with
  | Some s => ascii_text s
  | None => true
  end.

(** The search for a keyword returns a vacancy whose name does not contain
    the keyword as a substring. *)
Definition overmatches (keyword : string) : Prop :=
  ∃ w name lo hi url result,
    fst (get_vacancies_with_keyword keyword w) = Returned result
    ∧ (Some name, lo, hi, url) ∈ result
    ∧ ¬ (∃ pre post, name = pre +:+ keyword +:+ post).

(** The pattern of a plain keyword between two [%]. *)
Fixpoint literals (k : string) : list tok :=
  match k with
  | EmptyString => []
  | String c k' => TLit c :: literals k'
  end.

(** A second company, and one that takes the name of the first. *)
Definition globex : dict :=
  <["id" := PyInt 2]> (<["name" := PyStr "Globex"]>
  (<["alternate_url" := PyStr "http://globex"]> ∅)).

Definition acme_again : dict :=
  <["id" := PyInt 3]> (<["name" := PyStr "Acme"]>
  (<["alternate_url" := PyStr "http://acme.example"]> ∅)).

(** A company record without a name. *)
Definition unnamed : dict :=
  <["id" := PyInt 4]> (<["alternate_url" := PyStr "http://nobody"]> ∅).

(** The staffed world with the second company, which has no vacancy. *)
Definition two_companies : world := snd (insert_company globex staffed).

(** ** Worlds and tables *)

(** The worlds that the two writers produce from a fresh database; the
    readers leave the world as it is. *)
Inductive reachable : world → Prop :=
  | reachable_init : reachable init
  | reachable_company company w :
      reachable w → reachable (snd (insert_company company w))
  | reachable_vacancy vacancy company_id w :
      reachable w → reachable (snd (insert_vacancy vacancy company_id w)).

(** The first key of a company record that [insert_company] finds
    missing. *)
Definition first_missing (company : dict) : option string :=
  List.find (fun key => negb (contains company key)) required_keys.

(** Every reference of a vacancy to a company finds its company. *)
Definition references_resolve (d : database) : Prop :=
  ∀ r i, r ∈ vacancies d → v_company_id r = Some i → has_company i d = true.

(** A row with both bounds and a currency. *)
Definition priced (r : vacancy_row) : Prop :=
  is_Some (v_salary_from r) ∧ is_Some (v_salary_to r)
  ∧ is_Some (v_currency r).



(** The part of the left join that belongs to one company. *)
Definition join_block (vs : list vacancy_row) (c : company_row)
  : list (company_row * option vacancy_row) :=
  match List.filter (fun v => references v c) vs with
  | [] => [(c, None)]
  | l => map (fun v => (c, Some v)) l
  end.

(** The grouping column of a joined row, and the rows that [COUNT] counts
    in the group of a name. *)
Definition joined_name (j : company_row * option vacancy_row) : string :=
  c_name (fst j).

Definition counted (nm : string) (j : company_row * option vacancy_row)
  : bool :=
  String.eqb (c_name (fst j)) nm && bool_decide (is_Some (snd j)).

(** The number of vacancies that refer to a company. *)
Definition vacancies_of (d : database) (c : company_row) : Z :=
  Z.of_nat (length (List.filter (fun v => references v c) (vacancies d))).

(** The company a vacancy refers to, when it has one. *)
Definition employer (d : database) (v : vacancy_row) : option company_row :=
  List.find (references v) (companies d).

(** A string that a [VARCHAR(n)] column takes as it is. *)
Definition fits_varchar (n : nat) (s : string) : Prop :=
  has_nul s = false ∧ (String.length s ≤ n)%nat.

(** Two pattern tokens that differ in the case of a letter at most. *)
Inductive tok_nocase : tok → tok → Prop :=
  | tok_nocase_any : tok_nocase TAny TAny
  | tok_nocase_one : tok_nocase TOne TOne
  | tok_nocase_lit c c' : lower c = lower c' → tok_nocase (TLit c) (TLit c').

(** Case analysis on the next step of a chain of fallible steps. *)
Ltac next_step H :=
  match type of H with
  | context [mbind _ ?o] =>
      let E := fresh "E" in
      destruct o eqn:E; simpl in H; [|discriminate H]
  end.

(** ** The vacancy writer: validation and failure policy *)

Section Writer.
Implicit Types (vacancy : dict) (company_id : pyval) (w : world).

Lemma required_present vacancy :
  forallb (contains vacancy) required_keys = true ↔
  is_Some (vacancy !! "id") ∧ is_Some (vacancy !! "name")
  ∧ is_Some (vacancy !! "alternate_url").
Proof.
  unfold required_keys, contains; simpl.
  rewrite !andb_true_iff, !bool_decide_eq_true. tauto.
Qed.

Lemma required_absent vacancy :
  vacancy !! "id" = None ∨ vacancy !! "name" = None
  ∨ vacancy !! "alternate_url" = None →
  forallb (contains vacancy) required_keys = false.
Proof.
  intros H. apply not_true_is_false. rewrite required_present.
  intros (H1 & H2 & H3).
  destruct H as [H | [H | H]]; rewrite H in *; by eapply is_Some_None.
Qed.

(** C2: a vacancy record that lacks "id", "name" or "alternate_url" is
    skipped: the call returns normally, and the world (tables and output)
    is what it was, so no row has been added. *)
Theorem insert_vacancy_skips_incomplete vacancy company_id w :
  vacancy !! "id" = None ∨ vacancy !! "name" = None
  ∨ vacancy !! "alternate_url" = None →
  insert_vacancy vacancy company_id w = (Returned tt, w).
Proof.
  intros H. unfold insert_vacancy.
  by rewrite (required_absent _ H).
Qed.

Lemma insert_vacancy_skips_incomplete_witness :
  insert_vacancy nameless (PyInt 1) with_acme = (Returned tt, with_acme).
Proof.
  apply insert_vacancy_skips_incomplete. right; left. reflexivity.
Defined.

(** A salary that is truthy and is not a dict stops the call at the first
    [salary.get]: the exception leaves the method, nothing is written. *)
Lemma insert_vacancy_salary_not_dict vacancy company_id w :
  forallb (contains vacancy) required_keys = true →
  truthy (get vacancy "salary") = true →
  (∀ d, get vacancy "salary" ≠ PyDict d) →
  insert_vacancy vacancy company_id w = (Raised (AttributeError "get"), w).
Proof.
  intros Hreq Ht Hd. unfold insert_vacancy, por.
  rewrite Hreq, Ht; simpl.
  destruct (get vacancy "salary") eqn:E; try reflexivity.
  by destruct (Hd d).
Qed.

(** C9: the [try] block of [insert_vacancy] does not cover the reading of
    the salary. There is a record with all required keys whose "salary" is
    a non-empty string: the call raises to its caller, and no row is
    added although the same record without that salary is stored. *)
Theorem insert_vacancy_salary_error_escapes :
  ∃ vacancy company_id w s,
    forallb (contains vacancy) required_keys = true
    ∧ vacancy !! "salary" = Some (PyStr s)
    ∧ truthy (PyStr s) = true
    ∧ fst (insert_vacancy vacancy company_id w) = Raised (AttributeError "get")
    ∧ snd (insert_vacancy vacancy company_id w) = w
    ∧ count_vacancies 10 (db (snd (insert_vacancy vacancy company_id w))) = 0%nat
    ∧ count_vacancies 10
        (db (snd (insert_vacancy (delete "salary" vacancy) company_id w)))
      = 1%nat.
Proof.
  exists negotiable, (PyInt 1), with_acme, "negotiable".
  assert (H : insert_vacancy negotiable (PyInt 1) with_acme
              = (Raised (AttributeError "get"), with_acme)).
  { apply insert_vacancy_salary_not_dict; [reflexivity | reflexivity |].
    intros d. vm_compute. discriminate. }
  rewrite H. repeat split; vm_compute; reflexivity.
Qed.



End Writer.

(** ** Primary keys *)

Section Keys.
Context {A : Type} (key : A → Z).
Implicit Types (rows : list A) (i : Z).

Lemma key_absent rows i :
  existsb (fun r => key r =? i) rows = false →
  length (filter (fun r => key r = i) rows) = 0%nat.
Proof.
  induction rows as [|r rows IH]; simpl; [done|].
  rewrite orb_false_iff, Z.eqb_neq. intros [Hne Hrest].
  rewrite filter_cons_False by done. auto.
Qed.

Lemma key_absent_notin rows i :
  existsb (fun r => key r =? i) rows = false → i ∉ map key rows.
Proof.
  induction rows as [|r rows IH]; simpl.
  - intros _. apply not_elem_of_nil.
  - rewrite orb_false_iff, Z.eqb_neq. intros [Hne Hrest].
    rewrite not_elem_of_cons. split; [congruence | auto].
Qed.

Lemma key_present_once rows i :
  NoDup (map key rows) →
  existsb (fun r => key r =? i) rows = true →
  length (filter (fun r => key r = i) rows) = 1%nat.
Proof.
  induction rows as [|r rows IH]; simpl; [done|].
  rewrite NoDup_cons. intros [Hnotin Hnd].
  destruct (Z.eqb_spec (key r) i) as [Heq | Hne]; simpl.
  - intros _. rewrite filter_cons_True by done. simpl. f_equal.
    apply key_absent. apply not_true_is_false. intros Hex.
    apply existsb_exists in Hex as (r' & Hin & Hr').
    apply Z.eqb_eq in Hr'. apply Hnotin. rewrite Heq, <- Hr'.
    apply list_elem_of_In, in_map, Hin.
  - intros Hex. rewrite filter_cons_False by done. auto.
Qed.


Lemma key_added_once rows r :
  existsb (fun r' => key r' =? key r) rows = false →
  length (filter (fun r' => key r' = key r) (rows ++ [r])%list) = 1%nat.
Proof.
  intros H. rewrite filter_app, length_app, (key_absent _ _ H).
  by rewrite filter_cons_True, filter_nil.
Qed.

Lemma key_added_nodup rows r :
  NoDup (map key rows) →
  existsb (fun r' => key r' =? key r) rows = false →
  NoDup (map key (rows ++ [r])%list).
Proof.
  intros Hnd H. rewrite map_app; simpl. apply NoDup_app.
  split; [done|]. split.
  - intros x Hx Hin. apply list_elem_of_singleton in Hin as ->.
    by apply (key_absent_notin _ _ H).
  - apply NoDup_singleton.
Qed.

End Keys.

(** ** The writers: conflicts and stored rows *)

Section Statements.
Implicit Types (d : database) (i : Z).

Lemma not_null_inv {A : Type} (o : option A) (a : A) :
  not_null o = Returned a → o = Some a.
Proof. destruct o; simpl; intros [=]; by subst. Qed.

Lemma as_int4_steps p l o :
  adapt p = Returned l → to_int4 l = Returned o → as_int4 p = Returned o.
Proof. intros Hl Ho. unfold as_int4. by rewrite Hl. Qed.

Lemma as_varchar_steps n p l o :
  adapt p = Returned l → to_varchar n l = Returned o →
  as_varchar n p = Returned o.
Proof. intros Hl Ho. unfold as_varchar. by rewrite Hl. Qed.

Lemma ident_steps p l o :
  adapt p = Returned l → to_int4 l = Returned o → ident p = o.
Proof. intros Hl Ho. unfold ident. by rewrite (as_int4_steps _ _ _ Hl Ho). Qed.

(** What a successful company insert does: nothing when the identifier is
    taken, one row at the end of the table otherwise. *)
Lemma insert_company_stmt_inv p_id p_name p_url d d' :
  insert_company_stmt p_id p_name p_url d = Returned d' →
  ∃ i, ident p_id = Some i ∧
    ((has_company i d = true ∧ d' = d) ∨
     (has_company i d = false ∧
      ∃ r, c_id r = i ∧
           d' = {| companies := companies d ++ [r];
                   vacancies := vacancies d |})).
Proof.
  unfold insert_company_stmt. intros H.
  do 7 next_step H.
  apply not_null_inv in E4 as ->.
  exists a4. split; [by eapply ident_steps|].
  destruct (has_company a4 d) eqn:Hhas.
  - left. by injection H as <-.
  - right. split; [done|].
    destruct (has_company_name a5 d); [discriminate H|].
    injection H as <-. eexists. split; [|reflexivity]. reflexivity.
Qed.

(** The same for a vacancy; the new row holds the converted parameters. *)
Lemma insert_vacancy_stmt_inv
    p_id p_company p_name p_from p_to p_currency p_url d d' :
  insert_vacancy_stmt p_id p_company p_name p_from p_to p_currency p_url d
  = Returned d' →
  ∃ i, ident p_id = Some i ∧
    ((has_vacancy i d = true ∧ d' = d) ∨
     (has_vacancy i d = false ∧
      ∃ r, v_id r = i
           ∧ as_int4 p_from = Returned (v_salary_from r)
           ∧ as_int4 p_to = Returned (v_salary_to r)
           ∧ as_varchar 10 p_currency = Returned (v_currency r)
           ∧ d' = {| companies := companies d;
                     vacancies := vacancies d ++ [r] |})).
Proof.
  unfold insert_vacancy_stmt. intros H.
  do 14 next_step H.
  apply not_null_inv in E12 as ->.
  exists a12. split; [by eapply ident_steps|].
  destruct (has_vacancy a12 d) eqn:Hhas.
  - left. by injection H as <-.
  - right. split; [done|].
    destruct (match a7 with Some c => has_company c d | None => true end);
      [|discriminate H].
    injection H as <-.
    exists {| v_id := a12; v_company_id := a7; v_name := a8;
              v_salary_from := a9; v_salary_to := a10;
              v_currency := a11; v_url := to_text a5 |}; simpl.
    repeat split; eauto using as_int4_steps, as_varchar_steps.
Qed.

Lemma has_company_app i d r :
  has_company i {| companies := companies d ++ [r]; vacancies := vacancies d |}
  = has_company i d || (c_id r =? i).
Proof. unfold has_company; simpl. by rewrite existsb_app; simpl; rewrite orb_false_r. Qed.

Lemma has_vacancy_app i d r :
  has_vacancy i {| companies := companies d; vacancies := vacancies d ++ [r] |}
  = has_vacancy i d || (v_id r =? i).
Proof. unfold has_vacancy; simpl. by rewrite existsb_app; simpl; rewrite orb_false_r. Qed.

(** After a successful insert the identifier is in the table, once, and
    the keys are still unique. *)
Lemma insert_company_stmt_post p_id p_name p_url d d' i :
  wf d →
  insert_company_stmt p_id p_name p_url d = Returned d' →
  ident p_id = Some i →
  wf d' ∧ has_company i d' = true ∧ count_companies i d' = 1%nat.
Proof.
  intros [Hc Hv] H Hi.
  apply insert_company_stmt_inv in H as (i' & Hi' & H).
  assert (i' = i) as -> by congruence.
  destruct H as [[Hhas ->] | [Hhas (r & <- & ->)]].
  - repeat split; try done. by apply key_present_once.
  - repeat split; simpl; try done.
    + by apply key_added_nodup.
    + by rewrite has_company_app, Z.eqb_refl, orb_true_r.
    + by apply key_added_once.
Qed.

Lemma insert_vacancy_stmt_post
    p_id p_company p_name p_from p_to p_currency p_url d d' i :
  wf d →
  insert_vacancy_stmt p_id p_company p_name p_from p_to p_currency p_url d
  = Returned d' →
  ident p_id = Some i →
  wf d' ∧ has_vacancy i d' = true ∧ count_vacancies i d' = 1%nat.
Proof.
  intros [Hc Hv] H Hi.
  apply insert_vacancy_stmt_inv in H as (i' & Hi' & H).
  assert (i' = i) as -> by congruence.
  destruct H as [[Hhas ->] | [Hhas (r & <- & _ & _ & _ & ->)]].
  - repeat split; try done. by apply key_present_once.
  - repeat split; simpl; try done.
    + by apply key_added_nodup.
    + by rewrite has_vacancy_app, Z.eqb_refl, orb_true_r.
    + by apply key_added_once.
Qed.



End Statements.

(** ** The writers as calls *)

Section Calls.
Implicit Types (company vacancy : dict) (company_id : pyval) (w : world).

Lemma wf_empty : wf empty_db.
Proof. split; apply NoDup_nil_2. Qed.

(** A call of [insert_company] either raises and leaves the world alone,
    or runs its statement to the end and commits. *)
Lemma insert_company_run company w :
  (∃ e, insert_company company w = (Raised e, w))
  ∨ (∃ p_name p_url d',
        insert_company_stmt (get company "id") p_name p_url (db w)
        = Returned d'
        ∧ insert_company company w
          = (Returned tt, {| db := d'; stdout := stdout w |})).
Proof.
  unfold insert_company, mbind, M_bind, lift, getitem, execute, get.
  destruct (company !! "id") as [p_id|]; simpl; [|eauto].
  destruct (company !! "name") as [p_name|]; simpl; [|eauto].
  destruct (company !! "alternate_url") as [p_url|]; simpl; [|eauto].
  destruct (insert_company_stmt p_id p_name p_url (db w)) eqn:E; eauto 8.
Qed.

(** The four ways a call of [insert_vacancy] can go: skipped, stopped by
    the salary, failed in the statement, or committed. *)
Lemma insert_vacancy_run vacancy company_id w :
  (forallb (contains vacancy) required_keys = false
   ∧ insert_vacancy vacancy company_id w = (Returned tt, w))
  ∨ (∃ e, insert_vacancy vacancy company_id w = (Raised e, w))
  ∨ (∃ e, insert_vacancy vacancy company_id w
          = (Returned tt,
             {| db := db w;
                stdout := stdout w ++ [ErrorLine e; VacancyLine vacancy] |}))
  ∨ (∃ p_name p_url salary d',
        por (get vacancy "salary") (PyDict ∅) = PyDict salary
        ∧ insert_vacancy_stmt (get vacancy "id") company_id p_name
            (por (get salary "from") (PyInt 0))
            (por (get salary "to") (PyInt 0))
            (por (get salary "currency") (PyStr "RUR"))
            p_url (db w) = Returned d'
        ∧ insert_vacancy vacancy company_id w
          = (Returned tt, {| db := d'; stdout := stdout w |})).
Proof.
  destruct (forallb (contains vacancy) required_keys) eqn:Hreq.
  2: { left. split; [done|]. unfold insert_vacancy. by rewrite Hreq. }
  right. pose proof Hreq as Hkeys.
  apply required_present in Hkeys as ([p_id Hid] & [p_name Hname] & [p_url Hurl]).
  destruct (por (get vacancy "salary") (PyDict ∅)) as [| | | |salary] eqn:Hsal.
  1-4: left; eexists; unfold insert_vacancy; rewrite Hreq, Hsal; reflexivity.
  right.
  destruct (insert_vacancy_stmt p_id company_id p_name
              (por (get salary "from") (PyInt 0))
              (por (get salary "to") (PyInt 0))
              (por (get salary "currency") (PyStr "RUR"))
              p_url (db w)) as [d'|e] eqn:Hstmt.
  - right. exists p_name, p_url, salary, d'. split; [done|].
    unfold get at 1. rewrite Hid; simpl. split; [done|].
    unfold insert_vacancy. rewrite Hreq, Hsal; simpl.
    unfold try_except, mbind, M_bind, lift, getitem, execute; simpl.
    by rewrite Hid, Hname, Hurl, Hstmt.
  - left. exists e.
    unfold insert_vacancy. rewrite Hreq, Hsal; simpl.
    unfold try_except, mbind, M_bind, lift, getitem, execute, print; simpl.
    rewrite Hid, Hname, Hurl, Hstmt; simpl.
    by rewrite <- app_assoc.
Qed.

End Calls.

(** ** Inserting an identifier twice *)

Section Twice.
Implicit Types (company vacancy : dict) (company_id : pyval) (w : world).





(** The keys stay unique under both writers. *)
Lemma insert_company_wf company w :
  wf (db w) → wf (db (snd (insert_company company w))).
Proof.
  intros Hwf.
  destruct (insert_company_run company w)
    as [[e ->] | (p_name & p_url & d' & Hstmt & ->)]; simpl; [done|].
  pose proof Hstmt as Hinv.
  apply insert_company_stmt_inv in Hinv as (i & Hi & _).
  by eapply insert_company_stmt_post.
Qed.

Lemma insert_vacancy_wf vacancy company_id w :
  wf (db w) → wf (db (snd (insert_vacancy vacancy company_id w))).
Proof.
  intros Hwf.
  destruct (insert_vacancy_run vacancy company_id w)
    as [[_ ->] | [[e ->] | [[e ->] |
        (p_name & p_url & salary & d' & _ & Hstmt & ->)]]]; simpl; try done.
  pose proof Hstmt as Hinv.
  apply insert_vacancy_stmt_inv in Hinv as (i & Hi & _).
  by eapply insert_vacancy_stmt_post.
Qed.




End Twice.

Section TwiceClaim.
Implicit Types (company vacancy : dict) (company_id : pyval) (w : world).







End TwiceClaim.

(** ** Salary defaults *)

Section Salary.
Implicit Types (vacancy salary : dict) (company_id : pyval) (w : world).

Lemma por_none (y : pyval) : por PyNone y = y.
Proof. reflexivity. Qed.

Lemma por_int n : por (PyInt n) (PyInt 0) = PyInt n.
Proof.
  unfold por; simpl. destruct (Z.eqb_spec n 0) as [->|]; reflexivity.
Qed.

Lemma por_str s y : s ≠ EmptyString → por (PyStr s) y = PyStr s.
Proof.
  intros Hs. unfold por; simpl.
  destruct (String.eqb_spec s EmptyString); [done | reflexivity].
Qed.

Lemma as_int4_int n o : as_int4 (PyInt n) = Returned o → o = Some n.
Proof.
  unfold as_int4; simpl. unfold int4_range.
  destruct (in_int4 n); simpl; intros [=]; by subst.
Qed.

Lemma as_varchar_short n s o :
  (String.length s ≤ n)%nat → as_varchar n (PyStr s) = Returned o → o = Some s.
Proof.
  intros Hlen. unfold as_varchar; simpl.
  destruct (has_nul s); simpl; [discriminate|].
  unfold to_varchar; simpl. unfold varchar_fit.
  apply Nat.leb_le in Hlen. rewrite Hlen; simpl. intros [=]; by subst.
Qed.

(** A row that a call has added holds the converted salary parameters. *)
Lemma insert_vacancy_new_row vacancy company_id w salary r :
  por (get vacancy "salary") (PyDict ∅) = PyDict salary →
  r ∈ vacancies (db (snd (insert_vacancy vacancy company_id w))) →
  r ∉ vacancies (db w) →
  as_int4 (por (get salary "from") (PyInt 0)) = Returned (v_salary_from r)
  ∧ as_int4 (por (get salary "to") (PyInt 0)) = Returned (v_salary_to r)
  ∧ as_varchar 10 (por (get salary "currency") (PyStr "RUR"))
    = Returned (v_currency r).
Proof.
  intros Hsal Hin Hnew.
  destruct (insert_vacancy_run vacancy company_id w)
    as [[_ H] | [[e H] | [[e H] |
        (p_name & p_url & salary' & d' & Hsal' & Hstmt & H)]]];
    rewrite H in Hin; simpl in Hin; try done.
  assert (salary' = salary) as -> by congruence.
  apply insert_vacancy_stmt_inv in Hstmt
    as (i & _ & [[_ ->] | [_ (r' & _ & Hf & Ht & Hc & ->)]]); [done|].
  simpl in Hin. apply elem_of_app in Hin as [Hin | Hin]; [done|].
  apply list_elem_of_singleton in Hin as ->. done.
Qed.

(** C3 (amended): for a row [r] that a call of [insert_vacancy] has added,
    [salary] being the sub-structure the call works on (the empty dict when
    "salary" is absent, null or otherwise falsy): a bound that is absent or
    null is stored as 0 and an integer bound is stored as given; a currency
    that is absent or null is stored as "RUR" and a non-empty currency of
    at most 10 characters is stored as given. (A row is added only when the
    required keys are present.) *)
Theorem insert_vacancy_salary_defaults vacancy company_id w salary r :
  por (get vacancy "salary") (PyDict ∅) = PyDict salary →
  r ∈ vacancies (db (snd (insert_vacancy vacancy company_id w))) →
  r ∉ vacancies (db w) →
  (get vacancy "salary" = PyNone → salary = ∅)
  ∧ (get salary "from" = PyNone → v_salary_from r = Some 0)
  ∧ (∀ n, get salary "from" = PyInt n → v_salary_from r = Some n)
  ∧ (get salary "to" = PyNone → v_salary_to r = Some 0)
  ∧ (∀ n, get salary "to" = PyInt n → v_salary_to r = Some n)
  ∧ (get salary "currency" = PyNone → v_currency r = Some "RUR")
  ∧ (∀ s, get salary "currency" = PyStr s → s ≠ EmptyString →
          (String.length s ≤ 10)%nat → v_currency r = Some s).
Proof.
  intros Hsal Hin Hnew.
  destruct (insert_vacancy_new_row _ _ _ _ _ Hsal Hin Hnew) as (Hf & Ht & Hc).
  split; [|repeat split].
  - intros Hnone. rewrite Hnone in Hsal. by injection Hsal.
  - intros E. rewrite E, por_none in Hf. by apply as_int4_int in Hf.
  - intros n E. rewrite E, por_int in Hf. by apply as_int4_int in Hf.
  - intros E. rewrite E, por_none in Ht. by apply as_int4_int in Ht.
  - intros n E. rewrite E, por_int in Ht. by apply as_int4_int in Ht.
  - intros E. rewrite E, por_none in Hc.
    apply as_varchar_short in Hc; [done | simpl; lia].
  - intros s E Hs Hlen. rewrite E, por_str in Hc by done.
    by apply as_varchar_short in Hc.
Qed.

Lemma insert_vacancy_salary_defaults_witness :
  let r := {| v_id := 10; v_company_id := Some 1; v_name := Some "Engineer";
              v_salary_from := Some 1000; v_salary_to := Some 0;
              v_currency := Some "RUR"; v_url := Some "http://acme/10" |} in
  vacancies (db (snd (insert_vacancy from_only (PyInt 1) with_acme))) = [r]
  ∧ (get from_only "salary" = PyNone → <["from" := PyInt 1000]> ∅ =@{dict} ∅)
  ∧ (get (<["from" := PyInt 1000]> ∅) "from" = PyNone → v_salary_from r = Some 0)
  ∧ (∀ n, get (<["from" := PyInt 1000]> ∅) "from" = PyInt n →
          v_salary_from r = Some n)
  ∧ (get (<["from" := PyInt 1000]> ∅) "to" = PyNone → v_salary_to r = Some 0)
  ∧ (∀ n, get (<["from" := PyInt 1000]> ∅) "to" = PyInt n →
          v_salary_to r = Some n)
  ∧ (get (<["from" := PyInt 1000]> ∅) "currency" = PyNone →
     v_currency r = Some "RUR")
  ∧ (∀ s, get (<["from" := PyInt 1000]> ∅) "currency" = PyStr s →
          s ≠ EmptyString →
          (String.length s ≤ 10)%nat → v_currency r = Some s).
Proof.
  intros r. split; [reflexivity|].
  apply (insert_vacancy_salary_defaults from_only (PyInt 1) with_acme).
  - reflexivity.
  - vm_compute. apply list_elem_of_here.
  - vm_compute. apply not_elem_of_nil.
Defined.

(** C3 as stated fails on a present, non-null value that is falsy: the
    empty currency is a string, not null, and the row stores "RUR". *)
Lemma insert_vacancy_blank_currency_replaced :
  get blank_currency "salary"
  = PyDict (<["currency" := PyStr EmptyString]> salary_usd)
  ∧ (<["currency" := PyStr EmptyString]> salary_usd : dict) !! "currency"
    = Some (PyStr EmptyString)
  ∧ map v_currency
      (vacancies (db (snd (insert_vacancy blank_currency (PyInt 1) with_acme))))
    = [Some "RUR"]
  ∧ Some "RUR" ≠ Some EmptyString.
Proof. repeat split. discriminate. Qed.

End Salary.

(** ** The salary queries *)

Section Salaries.
Implicit Types (r : vacancy_row) (rows : list vacancy_row) (w : world).

Lemma in_int4_iff n : in_int4 n = true ↔ int4_min ≤ n ≤ int4_max.
Proof. unfold in_int4. rewrite andb_true_iff, !Z.leb_le. tauto. Qed.

Lemma Qlt_bool_iff (a b : Q) : Qlt_bool a b = true ↔ (a < b)%Q.
Proof.
  unfold Qlt_bool. rewrite negb_true_iff, <- not_true_iff_false, Qle_bool_iff.
  split; [apply Qnot_le_lt | apply Qlt_not_le].
Qed.

(** Halving keeps an [INT] an [INT]. *)
Lemma half_fits n :
  int4_min ≤ n ≤ int4_max → int4_min ≤ Z.quot n 2 ≤ int4_max.
Proof.
  unfold int4_min, int4_max. intros [Hlo Hhi].
  destruct (Z.le_gt_cases 0 n) as [Hpos | Hneg].
  - pose proof (Z.quot_pos n 2 Hpos ltac:(lia)).
    pose proof (Z.quot_le_upper_bound n 2 2147483647 ltac:(lia)). lia.
  - rewrite <- (Z.opp_involutive n), Z.quot_opp_l by lia.
    pose proof (Z.quot_pos (- n) 2 ltac:(lia) ltac:(lia)).
    pose proof (Z.quot_le_upper_bound (- n) 2 2147483648 ltac:(lia)). lia.
Qed.

(** The SQL expression on a row whose sum fits is the midpoint. *)
Lemma midpoint_fits r : sum_fits r → midpoint r = Returned (midpoint_of r).
Proof.
  unfold sum_fits, midpoint, midpoint_of, int4_add. intros Hfit.
  destruct (v_salary_from r) as [a|], (v_salary_to r) as [b|]; try reflexivity.
  specialize (Hfit a b eq_refl eq_refl).
  unfold int4_range. rewrite (proj2 (in_int4_iff _) Hfit); simpl.
  unfold int4_range. by rewrite (proj2 (in_int4_iff _) (half_fits _ Hfit)).
Qed.

(** On a row whose sum does not fit, it fails. *)
Lemma midpoint_returns r o : midpoint r = Returned o → sum_fits r.
Proof.
  unfold sum_fits, midpoint, int4_add. intros H a b Ha Hb.
  rewrite Ha, Hb in H. unfold int4_range in H.
  destruct (in_int4 (a + b)) eqn:E; [by apply in_int4_iff | discriminate H].
Qed.

Lemma both_midpoint r : both r = true ↔ is_Some (midpoint_of r).
Proof.
  unfold both, midpoint_of.
  destruct (v_salary_from r), (v_salary_to r); simpl;
    rewrite ?is_Some_alt; split; (done || eauto).
Qed.

Lemma select_where_both rows :
  select_where both_bounds rows = Returned (List.filter both rows).
Proof.
  induction rows as [|r rows IH]; simpl; [done|].
  rewrite IH; simpl. fold (both r). by destruct (both r).
Qed.

Lemma project_midpoint rows :
  Forall sum_fits rows →
  project midpoint rows = Returned (map midpoint_of rows).
Proof.
  induction 1 as [|r rows Hr _ IH]; simpl; [done|].
  by rewrite (midpoint_fits _ Hr), IH.
Qed.

Lemma project_midpoint_returns rows ms :
  project midpoint rows = Returned ms → Forall sum_fits rows.
Proof.
  revert ms. induction rows as [|r rows IH]; simpl; intros ms H; [done|].
  destruct (midpoint r) as [o|] eqn:Hm; simpl in H; [|discriminate H].
  destruct (project midpoint rows) as [ms'|]; simpl in H; [|discriminate H].
  constructor; [by eapply midpoint_returns | by eapply IH].
Qed.

Lemma midpoints_both rows :
  omap id (map midpoint_of (List.filter both rows)) = midpoints rows.
Proof.
  unfold midpoints. induction rows as [|r rows IH]; simpl; [done|].
  destruct (both r) eqn:Hb; simpl.
  - apply both_midpoint in Hb as [m Hm]. rewrite Hm; simpl. f_equal. exact IH.
  - destruct (midpoint_of r) eqn:Hm; [|done].
    assert (both r = true) by (apply both_midpoint; eauto). congruence.
Qed.

Lemma filter_fits rows (f : vacancy_row → bool) :
  Forall sum_fits rows → Forall sum_fits (List.filter f rows).
Proof.
  induction 1 as [|r rows Hr _ IH]; simpl; [done|].
  destruct (f r); [by constructor | done].
Qed.

(** The average statement, when no sum overflows... *)
Lemma select_avg_stmt_fits d :
  Forall sum_fits (vacancies d) →
  select_avg_stmt d
  = Returned (match midpoints (vacancies d) with
              | [] => None
              | m :: ms =>
                  Some (numeric_div (sumZ (m :: ms))
                                    (Z.of_nat (length (m :: ms))))
              end).
Proof.
  intros Hfit. unfold select_avg_stmt.
  rewrite select_where_both; simpl.
  rewrite project_midpoint by by apply filter_fits. simpl.
  unfold avg. by rewrite midpoints_both.
Qed.

(** ... and that it returns only then. *)
Lemma select_avg_stmt_returns d a :
  select_avg_stmt d = Returned a → Forall sum_fits (vacancies d).
Proof.
  unfold select_avg_stmt. rewrite select_where_both; simpl.
  destruct (project midpoint (List.filter both (vacancies d))) as [ms|] eqn:Hp;
    simpl; [|discriminate].
  intros _. apply project_midpoint_returns in Hp.
  rewrite Forall_forall in Hp. apply Forall_forall. intros r Hin.
  destruct (both r) eqn:Hb.
  - apply Hp. apply list_elem_of_In, filter_In. split; [|done].
    by apply list_elem_of_In.
  - intros a' b' Ha Hb'. unfold both in Hb. rewrite Ha, Hb' in Hb.
    simpl in Hb. discriminate Hb.
Qed.

(** The comparison statement, when no sum overflows. *)
Lemma select_higher_stmt_fits p d :
  Forall sum_fits (vacancies d) →
  select_higher_stmt p d
  = Returned (map tuple_of (List.filter (above p) (vacancies d))).
Proof.
  intros Hfit. unfold select_higher_stmt.
  enough (select_where
            (fun r => m ← midpoint r; Returned (gt_numeric m p)) (vacancies d)
          = Returned (List.filter (above p) (vacancies d))) as -> by done.
  induction Hfit as [|r rows Hr _ IH]; simpl; [done|].
  rewrite (midpoint_fits _ Hr), IH; simpl.
  unfold above, gt_numeric.
  destruct (midpoint_of r) as [m|], p as [q|]; try done.
Qed.

Lemma div_scale_range x y : 0 ≤ div_scale x y ≤ 1000.
Proof.
  unfold div_scale.
  destruct (numeric_top x) as [weight1 first1].
  destruct (numeric_top y) as [weight2 first2]. lia.
Qed.

Lemma numeric_unit_pos x y : 0 < 10 ^ div_scale x y.
Proof. apply Z.pow_pos_nonneg; [lia | apply div_scale_range]. Qed.

Lemma numeric_div_value x y :
  (numeric_div x y
   == numeric_div_units x y # Z.to_pos (10 ^ div_scale x y))%Q.
Proof. unfold numeric_div. apply Qred_correct. Qed.

(** Rounding gives a nearest integer, and of two nearest the one away from
    zero. *)
Lemma round_div_nearest x y :
  0 < y →
  2 * Z.abs (round_div x y * y - x) ≤ y
  ∧ (2 * Z.abs (round_div x y * y - x) = y →
     Z.abs x < Z.abs (round_div x y * y)).
Proof.
  intros Hy. unfold round_div. destruct (Z.leb_spec 0 x) as [Hx | Hx].
  - pose proof (Z.div_mod (2 * x + y) (2 * y) ltac:(lia)) as Hdiv.
    pose proof (Z.mod_pos_bound (2 * x + y) (2 * y) ltac:(lia)) as Hmod.
    set (u := (2 * x + y) / (2 * y)) in *.
    set (r := (2 * x + y) mod (2 * y)) in *.
    assert (Hu : 2 * (u * y - x) = y - r) by lia.
    split; lia.
  - pose proof (Z.div_mod (2 * - x + y) (2 * y) ltac:(lia)) as Hdiv.
    pose proof (Z.mod_pos_bound (2 * - x + y) (2 * y) ltac:(lia)) as Hmod.
    set (u := (2 * - x + y) / (2 * y)) in *.
    set (r := (2 * - x + y) mod (2 * y)) in *.
    assert (Hu : 2 * (- u * y - x) = r - y) by lia.
    split; lia.
Qed.

(** Rounding keeps a quotient at or above every integer that it reaches. *)
Lemma round_div_above x y t : 0 < y → t * y ≤ x → t ≤ round_div x y.
Proof.
  intros Hy Hx. unfold round_div. destruct (Z.leb_spec 0 x) as [H0 | H0].
  - apply Z.div_le_lower_bound; lia.
  - enough ((2 * - x + y) / (2 * y) < - t + 1) by lia.
    apply Z.div_lt_upper_bound; lia.
Qed.

Lemma numeric_div_rounded x y :
  0 < y → rounded x y (div_scale x y) (numeric_div x y).
Proof.
  intros Hy. exists (numeric_div_units x y).
  split; [apply numeric_div_value|].
  unfold numeric_div_units. by apply round_div_nearest.
Qed.

(** An integer above the rounded quotient is above the quotient. *)
Lemma numeric_div_lt x y m :
  0 < y → Qlt_bool (numeric_div x y) (inject_Z m) = true → x < m * y.
Proof.
  intros Hy H. apply Qlt_bool_iff in H. rewrite numeric_div_value in H.
  unfold Qlt in H. cbn [Qnum Qden inject_Z] in H.
  pose proof (numeric_unit_pos x y) as Hpos.
  rewrite Z2Pos.id in H by done.
  destruct (Z.lt_ge_cases x (m * y)) as [|Hge]; [done|].
  pose proof (round_div_above (x * 10 ^ div_scale x y) y
                (m * 10 ^ div_scale x y) Hy ltac:(nia)) as Habove.
  unfold numeric_div_units in H. lia.
Qed.

End Salaries.

Section SalaryClaims.
Implicit Types (r : vacancy_row) (w : world).

(** C5 (amended): when the sum of the bounds of every row that has both is
    an [INT], [get_avg_salary] returns, without touching the world: nothing
    when no row has both bounds, and otherwise the mean of the midpoints of
    exactly the rows that have both, a midpoint being the integer quotient
    of the sum by 2, and the mean being the [numeric] quotient of the sum of
    the midpoints by their number: a decimal fraction with as many decimals
    as the division of the server gives it, and of these fractions one
    nearest to the exact quotient, the one away from zero where two are as
    near. *)
Theorem get_avg_salary_mean w :
  Forall sum_fits (vacancies (db w)) →
  ∃ res, get_avg_salary w = (Returned res, w)
    ∧ (midpoints (vacancies (db w)) = [] → res = None)
    ∧ (midpoints (vacancies (db w)) ≠ [] →
       ∃ q, res = Some q
         ∧ rounded (sumZ (midpoints (vacancies (db w))))
                   (Z.of_nat (length (midpoints (vacancies (db w)))))
                   (div_scale
                      (sumZ (midpoints (vacancies (db w))))
                      (Z.of_nat (length (midpoints (vacancies (db w))))))
                   q).
Proof.
  intros Hfit. unfold get_avg_salary, query.
  rewrite (select_avg_stmt_fits _ Hfit).
  eexists. split; [reflexivity|].
  destruct (midpoints (vacancies (db w))) as [|m ms]; split.
  - reflexivity.
  - intros H. by destruct H.
  - discriminate.
  - intros _. eexists. split; [reflexivity|].
    apply numeric_div_rounded. simpl length. lia.
Qed.

Lemma get_avg_salary_mean_witness :
  midpoints (vacancies (db thirds)) = [1500; 3500; 500]
  ∧ div_scale 5500 3 = 16
  ∧ fst (get_avg_salary thirds)
    = Returned (Some (18333333333333333333 # 10000000000000000))
  ∧ ∃ res, get_avg_salary thirds = (Returned res, thirds)
    ∧ (midpoints (vacancies (db thirds)) = [] → res = None)
    ∧ (midpoints (vacancies (db thirds)) ≠ [] →
       ∃ q, res = Some q
         ∧ rounded (sumZ (midpoints (vacancies (db thirds))))
                   (Z.of_nat (length (midpoints (vacancies (db thirds)))))
                   (div_scale
                      (sumZ (midpoints (vacancies (db thirds))))
                      (Z.of_nat (length (midpoints (vacancies (db thirds))))))
                   q).
Proof.
  split; [reflexivity|]. split; [reflexivity|].
  split; [vm_compute; reflexivity|].
  apply get_avg_salary_mean.
  apply Forall_forall. intros r Hin. vm_compute in Hin.
  repeat (apply elem_of_cons in Hin as [-> | Hin]);
    [| | |by apply elem_of_nil in Hin];
    intros a b [= <-] [= <-]; unfold int4_min, int4_max; lia.
Defined.

(** C5 as stated fails where a sum overflows: the record is stored, its
    row has both bounds, and the query raises instead of returning. *)
Lemma get_avg_salary_overflow :
  let w := snd (insert_vacancy top_salary (PyInt 1) with_acme) in
  map (fun r => (v_salary_from r, v_salary_to r)) (vacancies (db w))
  = [(Some 2147483647, Some 1)]
  ∧ fst (get_avg_salary w) = Raised (DatabaseError NumericValueOutOfRange).
Proof. split; reflexivity. Qed.

(** The midpoint is an integer: for the bounds 2000 and 3001 the average is
    2500, not 5001/2. *)
Lemma get_avg_salary_truncates :
  fst (get_avg_salary odd_sum) = Returned (Some (2500 # 1))
  ∧ ¬ (2500 # 1 == 5001 # 2)%Q.
Proof. split; [reflexivity | discriminate]. Qed.

(** C6: with the average that [get_avg_salary] has returned,
    [get_vacancies_with_higher_salary] returns the tuples of exactly the
    rows whose midpoint lies strictly above it, in table order; a tuple is
    in the result only for a midpoint [m] with [average < m], so a row
    whose midpoint equals the average is left out. The midpoint is the
    value of [(salary_from + salary_to) / 2] on the row, an integer. *)
Theorem higher_salary_strictly_above w average :
  fst (get_avg_salary w) = Returned average →
  let result :=
    map tuple_of (List.filter (above average) (vacancies (db w))) in
  get_vacancies_with_higher_salary w = (Returned result, w)
  ∧ (∀ t, t ∈ result ↔
          ∃ r m q, r ∈ vacancies (db w) ∧ t = tuple_of r
                   ∧ midpoint_of r = Some m ∧ average = Some q
                   ∧ (q < inject_Z m)%Q)
  ∧ (∀ r m q, r ∈ vacancies (db w) → midpoint_of r = Some m →
              average = Some q → (q == inject_Z m)%Q →
              tuple_of r ∉ result).
Proof.
  intros Havg result.
  assert (Hfit : Forall sum_fits (vacancies (db w))).
  { unfold get_avg_salary, query in Havg. simpl in Havg.
    by eapply select_avg_stmt_returns. }
  assert (Hmem : ∀ t, t ∈ result ↔
            ∃ r m q, r ∈ vacancies (db w) ∧ t = tuple_of r
                     ∧ midpoint_of r = Some m ∧ average = Some q
                     ∧ (q < inject_Z m)%Q).
  { intros t. unfold result. rewrite list_elem_of_fmap. split.
    - intros (r & -> & Hin).
      apply list_elem_of_In, filter_In in Hin as [Hin Hab].
      unfold above in Hab.
      destruct (midpoint_of r) as [m|] eqn:Hm; [|discriminate Hab].
      destruct average as [q|]; [|discriminate Hab].
      exists r, m, q. rewrite list_elem_of_In.
      repeat split; try done. by apply Qlt_bool_iff.
    - intros (r & m & q & Hin & -> & Hm & -> & Hlt).
      exists r. split; [done|].
      apply list_elem_of_In, filter_In. rewrite <- list_elem_of_In.
      split; [done|]. unfold above. rewrite Hm. by apply Qlt_bool_iff. }
  split; [|split; [exact Hmem|]].
  - unfold get_vacancies_with_higher_salary, mbind, M_bind.
    unfold get_avg_salary, query in *. simpl in Havg. rewrite Havg.
    by rewrite (select_higher_stmt_fits _ _ Hfit).
  - intros r m q Hin Hm -> Heq Hres.
    apply Hmem in Hres as (r' & m' & q' & _ & Ht & Hm' & [= <-] & Hlt).
    assert (m' = m) as ->.
    { unfold tuple_of in Ht. injection Ht as _ Hf Hto _.
      unfold midpoint_of in Hm, Hm'. rewrite <- Hf, <- Hto, Hm in Hm'.
      congruence. }
    rewrite Heq in Hlt. by apply Qlt_irrefl in Hlt.
Qed.

Lemma higher_salary_strictly_above_witness :
  fst (get_avg_salary staffed) = Returned (Some (2500 # 1))
  ∧ midpoints (vacancies (db staffed)) = [1500; 3500; 2500]
  ∧ get_vacancies_with_higher_salary staffed
    = (Returned [(Some "SENIOR ENGINEER", Some 3000, Some 4000,
                  Some "http://acme/11")], staffed).
Proof.
  split; [reflexivity|]. split; [reflexivity|].
  apply (higher_salary_strictly_above staffed (Some (2500 # 1))).
  reflexivity.
Defined.

Lemma no_bounds_no_midpoints (rows : list vacancy_row) :
  Forall (fun r => v_salary_from r = None ∨ v_salary_to r = None) rows →
  Forall sum_fits rows ∧ midpoints rows = []
  ∧ ∀ p, List.filter (above p) rows = [].
Proof.
  induction 1 as [|r rows Hr _ (IH1 & IH2 & IH3)]; [by repeat constructor|].
  assert (Hm : midpoint_of r = None).
  { unfold midpoint_of. destruct Hr as [-> | ->]; [done|].
    by destruct (v_salary_from r). }
  split; [|split].
  - constructor; [|done]. intros a b Ha Hb. destruct Hr; congruence.
  - unfold midpoints in *. simpl. by rewrite Hm.
  - intros p. simpl. unfold above at 1. by rewrite Hm.
Qed.

(** C8: when the table is empty, or every row lacks a bound,
    [get_avg_salary] returns nothing, and
    [get_vacancies_with_higher_salary] returns the empty list, without an
    error and without touching the world: no midpoint compares as greater
    than a null average. *)
Theorem higher_salary_without_average w :
  Forall (fun r => v_salary_from r = None ∨ v_salary_to r = None)
         (vacancies (db w)) →
  get_avg_salary w = (Returned None, w)
  ∧ get_vacancies_with_higher_salary w = (Returned [], w).
Proof.
  intros Hnone.
  destruct (no_bounds_no_midpoints _ Hnone) as (Hfit & Hmid & Hfilter).
  assert (Havg : get_avg_salary w = (Returned None, w)).
  { unfold get_avg_salary, query.
    by rewrite (select_avg_stmt_fits _ Hfit), Hmid. }
  split; [done|].
  unfold get_vacancies_with_higher_salary, mbind, M_bind.
  rewrite Havg. unfold query.
  by rewrite (select_higher_stmt_fits _ _ Hfit), Hfilter.
Qed.

Lemma higher_salary_without_average_witness :
  (get_avg_salary init = (Returned None, init)
   ∧ get_vacancies_with_higher_salary init = (Returned [], init))
  ∧ (get_avg_salary open_ended = (Returned None, open_ended)
     ∧ get_vacancies_with_higher_salary open_ended
       = (Returned [], open_ended)).
Proof.
  split.
  - apply higher_salary_without_average. simpl. constructor.
  - apply higher_salary_without_average. simpl.
    constructor; [by right | constructor].
Defined.

End SalaryClaims.

(** ** Keyword search *)

Section Patterns.
Implicit Types (k s : string) (c : ascii) (ts : list tok).

Lemma parse_like_plain c s :
  plain c = true → parse_like (String c s) = cons (TLit c) <$> parse_like s.
Proof.
  destruct c as [[] [] [] [] [] [] [] []]; try reflexivity; discriminate.
Qed.

Lemma parse_like_keyword k :
  plain_string k = true →
  parse_like (k +:+ "%") = Some (literals k ++ [TAny])%list.
Proof.
  induction k as [|c k IH]; [done|].
  intros H. simpl in H. apply andb_true_iff in H as [Hc Hk].
  change (parse_like (String c (k +:+ "%"))
          = Some (TLit c :: (literals k ++ [TAny])%list)).
  by rewrite (parse_like_plain _ _ Hc), (IH Hk).
Qed.

Lemma has_nul_keyword k :
  plain_string k = true → has_nul ("%" +:+ k +:+ "%") = false.
Proof.
  intros Hk. change (has_nul (k +:+ "%") = false).
  induction k as [|c k IH]; simpl; [done|].
  simpl in Hk. apply andb_true_iff in Hk as [Hc Hk]. rewrite (IH Hk).
  unfold plain in Hc. apply negb_true_iff in Hc.
  rewrite !orb_false_iff in Hc. destruct Hc as [_ ->]. done.
Qed.

(** One step of [%]. *)
Lemma like_match_any ts s :
  like_match (TAny :: ts) s
  = like_match ts s ||
    match s with
    | String _ s' => like_match (TAny :: ts) s'
    | EmptyString => false
    end.
Proof. by destruct s. Qed.

Lemma like_match_any_only s : like_match [TAny] s = true.
Proof.
  induction s as [|c s IH]; [done|].
  rewrite like_match_any, IH. apply orb_true_r.
Qed.

Lemma like_match_prefix k s :
  like_match (literals k ++ [TAny])%list s = prefix_nocase k s.
Proof.
  revert s. induction k as [|c k IH]; intros s.
  - simpl literals. simpl app. rewrite like_match_any_only. by destruct s.
  - destruct s as [|c' s]; simpl; [done|]. by rewrite IH.
Qed.

Lemma like_match_occurs k s :
  like_match (TAny :: literals k ++ [TAny])%list s = occurs_nocase k s.
Proof.
  induction s as [|c s IH].
  - rewrite like_match_any, like_match_prefix. by destruct k.
  - rewrite like_match_any, like_match_prefix, IH. reflexivity.
Qed.

Lemma eq_nocase_iff (a b : ascii) : eq_nocase a b = true ↔ lower a = lower b.
Proof. unfold eq_nocase. apply Ascii.eqb_eq. Qed.

(** What [prefix_nocase] and [occurs_nocase] decide. *)
Lemma prefix_nocase_spec k s :
  prefix_nocase k s = true ↔
  ∃ mid post, s = mid +:+ post ∧ lower_string mid = lower_string k.
Proof.
  revert s. induction k as [|a k IH]; intros s; simpl.
  - split; [|done]. intros _. by exists EmptyString, s.
  - destruct s as [|b s].
    + split; [done|]. intros (mid & post & Hs & Hl).
      destruct mid; simpl in *; discriminate.
    + rewrite andb_true_iff, eq_nocase_iff, IH. split.
      * intros (Hab & mid & post & -> & Hl).
        exists (String b mid), post. simpl. by rewrite Hl, Hab.
      * intros (mid & post & Hs & Hl).
        destruct mid as [|b' mid]; simpl in *; [discriminate|].
        injection Hs as <- ->. injection Hl as Hb Hl.
        split; [done|]. by exists mid, post.
Qed.

Lemma occurs_nocase_spec k s :
  occurs_nocase k s = true ↔
  ∃ pre mid post,
    s = pre +:+ mid +:+ post ∧ lower_string mid = lower_string k.
Proof.
  induction s as [|c s IH].
  - simpl. rewrite orb_false_r, prefix_nocase_spec. split.
    + intros (mid & post & Hs & Hl). by exists EmptyString, mid, post.
    + intros (pre & mid & post & Hs & Hl).
      destruct pre; simpl in Hs; [|discriminate]. by exists mid, post.
  - simpl occurs_nocase. rewrite orb_true_iff, prefix_nocase_spec, IH. split.
    + intros [(mid & post & Hs & Hl) | (pre & mid & post & -> & Hl)].
      * by exists EmptyString, mid, post.
      * by exists (String c pre), mid, post.
    + intros (pre & mid & post & Hs & Hl).
      destruct pre as [|c' pre]; simpl in Hs.
      * left. by exists mid, post.
      * right. injection Hs as <- ->. by exists pre, mid, post.
Qed.

End Patterns.

Section Keyword.
Implicit Types (keyword : string) (w : world).

(** A literal occurrence is an occurrence case apart. *)
Lemma occurs_literal keyword name :
  (∃ pre post, name = pre +:+ keyword +:+ post) →
  occurs_nocase keyword name = true.
Proof.
  intros (pre & post & ->). apply occurs_nocase_spec.
  by exists pre, keyword, post.
Qed.

Lemma select_where_ilike keyword rows :
  plain_string keyword = true →
  select_where (fun r => ilike (v_name r) ("%" +:+ keyword +:+ "%")) rows
  = Returned (List.filter (named_like keyword) rows).
Proof.
  intros Hk. induction rows as [|r rows IH]; [done|].
  simpl select_where. rewrite IH. unfold ilike, named_like. simpl List.filter.
  destruct (v_name r) as [s|]; [|done].
  change (parse_like ("%" +:+ keyword +:+ "%"))
    with (cons TAny <$> parse_like (keyword +:+ "%")).
  rewrite (parse_like_keyword _ Hk).
  unfold fmap, option_fmap, option_map. cbv beta iota.
  rewrite like_match_occurs. simpl. by destruct (occurs_nocase keyword s).
Qed.

(** For a keyword made of plain characters (no [%], [_], backslash or NUL)
    the search returns the tuples of exactly the rows whose name has the
    keyword in it, letters compared without regard to case. *)
Lemma get_vacancies_with_keyword_plain keyword w :
  plain_string keyword = true →
  get_vacancies_with_keyword keyword w
  = (Returned (map tuple_of
                 (List.filter (named_like keyword) (vacancies (db w)))), w).
Proof.
  intros Hk.
  unfold get_vacancies_with_keyword, query, select_keyword_stmt, adapt.
  rewrite (has_nul_keyword _ Hk).
  unfold mbind at 1, outcome_bind at 1.
  by rewrite (select_where_ilike _ _ Hk).
Qed.

(** The search for "Engineer" finds the name "SENIOR ENGINEER". *)
Lemma get_vacancies_with_keyword_engineer :
  get_vacancies_with_keyword "Engineer" staffed
  = (Returned [(Some "Engineer", Some 1000, Some 2000, Some "http://acme/10");
               (Some "SENIOR ENGINEER", Some 3000, Some 4000,
                Some "http://acme/11")], staffed).
Proof. by rewrite get_vacancies_with_keyword_plain. Qed.

(** C7 at the keyword "a_c": the search returns the vacancy named "abc",
    although "a_c" occurs nowhere in that name, even case apart: the
    underscore of the keyword has matched the "b". *)
Theorem get_vacancies_with_keyword_underscore :
  get_vacancies_with_keyword "a_c" staffed
  = (Returned [(Some "abc", Some 2000, Some 3001, Some "http://acme/12")],
     staffed)
  ∧ occurs_nocase "a_c" "abc" = false
  ∧ List.filter (named_like "a_c") (vacancies (db staffed)) = [].
Proof. repeat split. Qed.

(** C10: the keyword reaches the pattern as it is, and [%] and [_] in it
    act as wildcards: for the keyword "%", and for the keyword "_", the
    search returns a vacancy whose name does not contain the keyword. *)
Theorem get_vacancies_with_keyword_wildcards :
  overmatches "%" ∧ overmatches "_".
Proof.
  assert (Hno : ∀ keyword, occurs_nocase keyword "abc" = false →
                  ¬ (∃ pre post, "abc" = pre +:+ keyword +:+ post)).
  { intros keyword Hocc H. apply occurs_literal in H. congruence. }
  split;
    exists staffed, "abc", (Some 2000), (Some 3001), (Some "http://acme/12");
    eexists; (split; [reflexivity|]); (split; [|by apply Hno]);
    simpl; repeat constructor.
Qed.

End Keyword.


(** * Further properties *)

(** ** How the writers fail *)

Section WriterErrors.
Implicit Types (company vacancy : dict) (company_id : pyval) (w : world).

(** [insert_company] has no guard for its keys: on a record without "id",
    "name" or "alternate_url" it raises [KeyError] for the first of them
    that is missing, and the world is what it was. *)
Theorem insert_company_missing_key company w key :
  first_missing company = Some key →
  insert_company company w = (Raised (KeyError key), w).
Proof.
  unfold first_missing, required_keys, contains; simpl.
  unfold insert_company, mbind, M_bind, lift, getitem.
  destruct (company !! "id") as [p_id|]; simpl.
  2: { by intros [= <-]. }
  destruct (company !! "name") as [p_name|]; simpl.
  2: { by intros [= <-]. }
  destruct (company !! "alternate_url") as [p_url|]; simpl.
  2: { by intros [= <-]. }
  discriminate.
Qed.

Lemma insert_company_missing_key_witness :
  insert_company unnamed with_acme = (Raised (KeyError "name"), with_acme).
Proof. apply insert_company_missing_key. reflexivity. Defined.

(** [insert_company] lets the errors of the database through: a record
    with a new identifier and the name of a company that is there raises
    the unique violation, and the world is what it was. *)
Theorem insert_company_name_taken company w p_id p_name p_url i nm l :
  company !! "id" = Some p_id →
  company !! "name" = Some p_name →
  company !! "alternate_url" = Some p_url →
  ident p_id = Some i →
  as_varchar 255 p_name = Returned (Some nm) →
  adapt p_url = Returned l →
  has_company i (db w) = false →
  has_company_name nm (db w) = true →
  insert_company company w = (Raised (DatabaseError UniqueViolation), w).
Proof.
  intros Hid Hname Hurl Hi Hnm Hl Hfresh Htaken.
  unfold insert_company, mbind, M_bind, lift, getitem, execute.
  rewrite Hid, Hname, Hurl; simpl.
  unfold ident, as_int4 in Hi. unfold as_varchar in Hnm.
  unfold insert_company_stmt.
  destruct (adapt p_id) as [l_id|]; simpl in *; [|discriminate].
  destruct (adapt p_name) as [l_name|]; simpl in *; [|discriminate].
  rewrite Hl; simpl.
  destruct (to_int4 l_id) as [o|]; simpl in *; [|discriminate].
  subst o. rewrite Hnm; simpl.
  by rewrite Hfresh, Htaken.
Qed.

Lemma insert_company_name_taken_witness :
  insert_company acme_again staffed
  = (Raised (DatabaseError UniqueViolation), staffed).
Proof.
  apply (insert_company_name_taken acme_again staffed
           (PyInt 3) (PyStr "Acme") (PyStr "http://acme.example")
           3 "Acme" (LStr "http://acme.example"));
    reflexivity.
Defined.


End WriterErrors.

(** ** What a writer adds *)

Section Added.
Implicit Types (company vacancy : dict) (company_id : pyval) (w : world)
  (d : database).

Lemma insert_company_stmt_added p_id p_name p_url d d' :
  insert_company_stmt p_id p_name p_url d = Returned d' →
  d' = d
  ∨ ∃ r, has_company (c_id r) d = false
         ∧ has_company_name (c_name r) d = false
         ∧ d' = {| companies := companies d ++ [r];
                   vacancies := vacancies d |}.
Proof.
  unfold insert_company_stmt. intros H. do 7 next_step H.
  destruct (has_company _ d) eqn:Hid; [left; by injection H|].
  destruct (has_company_name _ d) eqn:Hname; [discriminate H|].
  right. injection H as <-. eexists. split; [|split; [|reflexivity]]; done.
Qed.

Lemma insert_vacancy_stmt_added
    p_id p_company p_name p_from p_to p_currency p_url d d' :
  insert_vacancy_stmt p_id p_company p_name p_from p_to p_currency p_url d
  = Returned d' →
  d' = d
  ∨ ∃ r, has_vacancy (v_id r) d = false
         ∧ (∀ i, v_company_id r = Some i → has_company i d = true)
         ∧ as_int4 p_company = Returned (v_company_id r)
         ∧ as_int4 p_from = Returned (v_salary_from r)
         ∧ as_int4 p_to = Returned (v_salary_to r)
         ∧ as_varchar 10 p_currency = Returned (v_currency r)
         ∧ d' = {| companies := companies d;
                   vacancies := vacancies d ++ [r] |}.
Proof.
  unfold insert_vacancy_stmt. intros H. do 14 next_step H.
  destruct (has_vacancy _ d) eqn:Hid; [left; by injection H|].
  match type of H with
  | (if ?c then _ else _) = _ => destruct c eqn:Hfk; [|discriminate H]
  end.
  right. injection H as <-. eexists.
  split; [|split; [|split; [|split; [|split; [|split; [|reflexivity]]]]]];
    simpl.
  - done.
  - intros i ->. done.
  - by eapply as_int4_steps.
  - by eapply as_int4_steps.
  - by eapply as_int4_steps.
  - by eapply as_varchar_steps.
Qed.

(** The tables after [insert_company]: as before, or with one company more
    whose identifier and name are new; the vacancies and the output are
    never touched. *)
Lemma insert_company_step company w :
  let w' := snd (insert_company company w) in
  vacancies (db w') = vacancies (db w) ∧ stdout w' = stdout w
  ∧ (companies (db w') = companies (db w)
     ∨ ∃ r, has_company (c_id r) (db w) = false
            ∧ has_company_name (c_name r) (db w) = false
            ∧ companies (db w') = (companies (db w) ++ [r])%list).
Proof.
  destruct (insert_company_run company w)
    as [[e ->] | (p_name & p_url & d' & Hstmt & ->)]; simpl.
  - auto.
  - apply insert_company_stmt_added in Hstmt
      as [-> | (r & Hid & Hname & ->)]; simpl; eauto 8.
Qed.

(** The tables after [insert_vacancy]: as before, or with one vacancy more
    whose identifier is new, whose company is there, and whose salary
    columns hold the converted defaults; the companies are never touched,
    and the output only grows. *)
Lemma insert_vacancy_step vacancy company_id w :
  let w' := snd (insert_vacancy vacancy company_id w) in
  companies (db w') = companies (db w)
  ∧ stdout w `prefix_of` stdout w'
  ∧ (vacancies (db w') = vacancies (db w)
     ∨ ∃ r salary,
         has_vacancy (v_id r) (db w) = false
         ∧ (∀ i, v_company_id r = Some i → has_company i (db w) = true)
         ∧ ident company_id = v_company_id r
         ∧ as_int4 (por (get salary "from") (PyInt 0))
           = Returned (v_salary_from r)
         ∧ as_int4 (por (get salary "to") (PyInt 0))
           = Returned (v_salary_to r)
         ∧ as_varchar 10 (por (get salary "currency") (PyStr "RUR"))
           = Returned (v_currency r)
         ∧ vacancies (db w') = (vacancies (db w) ++ [r])%list).
Proof.
  destruct (insert_vacancy_run vacancy company_id w)
    as [[_ ->] | [[e ->] | [[e ->] |
        (p_name & p_url & salary & d' & _ & Hstmt & ->)]]]; simpl.
  1-2: by auto.
  - split; [done|]. split; [by apply prefix_app_r | by left].
  - apply insert_vacancy_stmt_added in Hstmt
      as [-> | (r & Hid & Hfk & Hco & Hf & Ht & Hc & ->)]; simpl.
    + auto.
    + split; [done|]. split; [done|]. right. exists r, salary.
      assert (ident company_id = v_company_id r)
        by (unfold ident; by rewrite Hco).
      auto 10.
Qed.

End Added.

(** ** What every world built by the writers satisfies *)

Section Reachable.
Implicit Types (company vacancy : dict) (company_id : pyval) (w : world).


Lemma has_company_same d d' i :
  companies d' = companies d → has_company i d' = has_company i d.
Proof. unfold has_company. by intros ->. Qed.

Lemma has_company_more d d' r i :
  companies d' = (companies d ++ [r])%list →
  has_company i d = true → has_company i d' = true.
Proof.
  unfold has_company. intros -> H. rewrite existsb_app, H. done.
Qed.

Lemma name_added_nodup (rows : list company_row) r :
  NoDup (map c_name rows) →
  existsb (fun r' => String.eqb (c_name r') (c_name r)) rows = false →
  NoDup (map c_name (rows ++ [r])%list).
Proof.
  intros Hnd H. rewrite map_app; simpl. apply NoDup_app.
  split; [done|]. split; [|apply NoDup_singleton].
  intros x Hx Hin. apply list_elem_of_singleton in Hin as ->.
  apply list_elem_of_fmap in Hx as (r' & Heq & Hr').
  assert (existsb (fun r' => String.eqb (c_name r') (c_name r)) rows = true);
    [|congruence].
  apply existsb_exists. exists r'. split; [by apply list_elem_of_In|].
  apply String.eqb_eq. done.
Qed.

(** A salary parameter after its default is never NULL in its column. *)
Lemma as_int4_default x o :
  as_int4 (por x (PyInt 0)) = Returned o → is_Some o.
Proof.
  unfold por. destruct (truthy x) eqn:Ht.
  - destruct x; try discriminate Ht; unfold as_int4; simpl.
    + intros [=].
    + destruct (int4_range n); simpl; intros [= <-]; eauto.
    + destruct (has_nul s); simpl; [discriminate|].
      destruct (int4in s); simpl; intros [= <-]; eauto.
    + discriminate.
  - unfold as_int4; simpl. intros [= <-]. eauto.
Qed.

Lemma as_varchar_default n x y o :
  as_varchar n (por x (PyStr y)) = Returned o → is_Some o.
Proof.
  assert (Hstr : ∀ s, as_varchar n (PyStr s) = Returned o → is_Some o).
  { intros s. unfold as_varchar; simpl.
    destruct (has_nul s); simpl; [discriminate|].
    unfold to_varchar; simpl.
    destruct (varchar_fit n s); simpl; intros [= <-]; eauto. }
  unfold por. destruct (truthy x) eqn:Ht; [|apply Hstr].
  destruct x; try discriminate Ht; try apply Hstr;
    unfold as_varchar; simpl; try discriminate.
  - unfold to_varchar; simpl.
    destruct (varchar_fit n _); simpl; intros [= <-]; eauto.
  - unfold to_varchar; simpl.
    destruct (varchar_fit n _); simpl; intros [= <-]; eauto.
Qed.

(** What the writers keep, step by step. *)
Lemma reachable_invariant w :
  reachable w →
  wf (db w)
  ∧ NoDup (map c_name (companies (db w)))
  ∧ references_resolve (db w)
  ∧ Forall priced (vacancies (db w)).
Proof.
  induction 1 as [|company w _ (Hwf & Hnames & Href & Hpriced)
                  |vacancy company_id w _ (Hwf & Hnames & Href & Hpriced)].
  - split; [apply wf_empty|]. split; [apply NoDup_nil_2|].
    split; [|constructor].
    intros r i Hin. simpl in Hin. by apply elem_of_nil in Hin.
  - split; [by apply insert_company_wf|].
    destruct (insert_company_step company w)
      as (Hv & _ & [Hc | (r & _ & Hname & Hc)]).
    + split; [by rewrite Hc|]. split; [|by rewrite Hv].
      intros r i Hin Hi. rewrite Hv in Hin.
      rewrite (has_company_same _ _ _ Hc). by eapply Href.
    + split; [rewrite Hc; by apply name_added_nodup|].
      split; [|by rewrite Hv].
      intros r' i Hin Hi. rewrite Hv in Hin.
      apply (has_company_more _ _ _ _ Hc). by eapply Href.
  - split; [by apply insert_vacancy_wf|].
    destruct (insert_vacancy_step vacancy company_id w)
      as (Hc & _ & [Hv | (r & s & _ & Hfk & _ & Hf & Ht & Hcur & Hv)]).
    + split; [by rewrite Hc|]. split; [|by rewrite Hv].
      intros r i Hin Hi. rewrite Hv in Hin.
      rewrite (has_company_same _ _ _ Hc). by eapply Href.
    + split; [by rewrite Hc|]. split.
      * intros r' i Hin Hi. rewrite (has_company_same _ _ _ Hc).
        rewrite Hv in Hin. apply elem_of_app in Hin as [Hin | Hin].
        -- by eapply Href.
        -- apply list_elem_of_singleton in Hin as ->. by apply Hfk.
      * rewrite Hv. apply Forall_app. split; [done|].
        constructor; [|constructor].
        repeat split; eauto using as_int4_default, as_varchar_default.
Qed.

(** The constraints of the schema hold in every world that the writers
    build from a fresh database: no identifier twice in a table, no company
    name twice, and every vacancy that names a company names one that is
    there. *)
Theorem reachable_constraints w :
  reachable w →
  wf (db w)
  ∧ NoDup (map c_name (companies (db w)))
  ∧ references_resolve (db w).
Proof.
  intros H. destruct (reachable_invariant w H) as (H1 & H2 & H3 & _). auto.
Qed.

Lemma reachable_constraints_witness :
  wf (db staffed)
  ∧ NoDup (map c_name (companies (db staffed)))
  ∧ references_resolve (db staffed).
Proof.
  apply reachable_constraints. unfold staffed, with_acme. repeat constructor.
Defined.

(** [insert_vacancy] never stores NULL in a salary column: in every world
    that the writers build, each vacancy has both bounds and a currency. *)
Theorem reachable_priced w :
  reachable w → Forall priced (vacancies (db w)).
Proof.
  intros H. by destruct (reachable_invariant w H) as (_ & _ & _ & H4).
Qed.

Lemma reachable_priced_witness : Forall priced (vacancies (db staffed)).
Proof.
  apply reachable_priced. unfold staffed, with_acme. repeat constructor.
Defined.

End Reachable.

(** ** More on the salary queries *)

Section SalaryErrors.
Implicit Types (r : vacancy_row) (rows : list vacancy_row) (w : world).

(** The only error of the midpoint expression is the overflow. *)
Lemma midpoint_raises r e :
  midpoint r = Raised e → e = DatabaseError NumericValueOutOfRange.
Proof.
  unfold midpoint, int4_add, int4_div.
  destruct (v_salary_from r) as [a|], (v_salary_to r) as [b|];
    simpl; try discriminate.
  unfold int4_range.
  destruct (in_int4 (a + b)); simpl; [|by intros [= <-]].
  destruct (in_int4 (Z.quot (a + b) 2)); simpl; [discriminate|].
  by intros [= <-].
Qed.

Lemma project_midpoint_raises rows e :
  project midpoint rows = Raised e → e = DatabaseError NumericValueOutOfRange.
Proof.
  induction rows as [|r rows IH]; simpl; [discriminate|].
  destruct (midpoint r) eqn:Hm; simpl.
  - destruct (project midpoint rows); simpl; [discriminate|].
    intros [= <-]. by apply IH.
  - intros [= <-]. by eapply midpoint_raises.
Qed.

(** [get_avg_salary] fails exactly when the bounds of some row add up to
    more than an [INT] holds, and the error it raises is then the
    numeric-value-out-of-range error of the database; the world is left as
    it is either way. *)
Theorem get_avg_salary_raises_iff w :
  snd (get_avg_salary w) = w
  ∧ ((∃ e, fst (get_avg_salary w) = Raised e)
     ↔ ¬ Forall sum_fits (vacancies (db w)))
  ∧ (∀ e, fst (get_avg_salary w) = Raised e →
          e = DatabaseError NumericValueOutOfRange).
Proof.
  unfold get_avg_salary, query; simpl. split; [done|]. split.
  - split.
    + intros [e He] Hfit. rewrite (select_avg_stmt_fits _ Hfit) in He.
      discriminate He.
    + intros Hno. destruct (select_avg_stmt (db w)) as [a|e] eqn:Hs; [|eauto].
      destruct Hno. by eapply select_avg_stmt_returns.
  - intros e. unfold select_avg_stmt. rewrite select_where_both; simpl.
    destruct (project midpoint _) eqn:Hp; simpl; [discriminate|].
    intros [= <-]. by eapply project_midpoint_raises.
Qed.

(** [get_vacancies_with_higher_salary] fails exactly when [get_avg_salary]
    fails, with the same exception: the reader hands the error of the
    average on and adds none of its own. *)
Theorem higher_salary_fails_with_average w e :
  fst (get_vacancies_with_higher_salary w) = Raised e
  ↔ fst (get_avg_salary w) = Raised e.
Proof.
  unfold get_vacancies_with_higher_salary, mbind, M_bind.
  unfold get_avg_salary, query; simpl.
  destruct (select_avg_stmt (db w)) as [a|e'] eqn:Hs; simpl. 
  2: { split; intros [= ->]; reflexivity. }
  rewrite (select_higher_stmt_fits _ _ (select_avg_stmt_returns _ _ Hs)).
  split; intros H; discriminate H.
Qed.

(** In a world that the writers have built, the average is undefined
    exactly when there is no vacancy at all. *)
Theorem reachable_no_average_iff_empty w :
  reachable w →
  (fst (get_avg_salary w) = Returned None ↔ vacancies (db w) = []).
Proof.
  intros Hreach. unfold get_avg_salary, query; simpl. split.
  - intros Hs. pose proof (select_avg_stmt_returns _ _ Hs) as Hfit.
    rewrite (select_avg_stmt_fits _ Hfit) in Hs.
    destruct (reachable_invariant _ Hreach) as (_ & _ & _ & Hpriced).
    destruct (vacancies (db w)) as [|r rows]; [done|].
    apply Forall_cons in Hpriced as [([a Ha] & [b Hb] & _) _].
    unfold midpoints in Hs. simpl in Hs.
    unfold midpoint_of in Hs at 1. rewrite Ha, Hb in Hs. simpl in Hs.
    discriminate Hs.
  - intros Hempty. unfold select_avg_stmt. by rewrite Hempty.
Qed.

Lemma reachable_no_average_iff_empty_witness :
  (fst (get_avg_salary with_acme) = Returned None
   ↔ vacancies (db with_acme) = [])
  ∧ vacancies (db with_acme) = [].
Proof.
  split; [|reflexivity].
  apply reachable_no_average_iff_empty. unfold with_acme. repeat constructor.
Defined.

End SalaryErrors.

Section AboveAverage.
Implicit Types (r : vacancy_row) (rows : list vacancy_row) (w : world).

Lemma sum_above (ms : list Z) (s n : Z) :
  Forall (fun m => s < m * n) ms →
  Z.of_nat (length ms) * s ≤ sumZ ms * n
  ∧ (ms ≠ [] → Z.of_nat (length ms) * s < sumZ ms * n).
Proof.
  induction 1 as [|m ms Hm _ [IH _]].
  - simpl. split; [lia | done].
  - change (length (m :: ms)) with (S (length ms)).
    change (sumZ (m :: ms)) with (m + sumZ ms).
    rewrite Nat2Z.inj_succ. split; [|intros _]; lia.
Qed.

(** When every row lies above the average, every midpoint does. *)
Lemma all_above_midpoints q rows :
  forallb (above (Some q)) rows = true →
  length (midpoints rows) = length rows
  ∧ Forall (fun m => Qlt_bool q (inject_Z m) = true) (midpoints rows).
Proof.
  unfold midpoints.
  induction rows as [|r rows IH]; simpl; [by split; [|constructor]|].
  rewrite andb_true_iff. intros [Hr Hrows]. destruct (IH Hrows) as [Hlen Hall].
  unfold above in Hr. destruct (midpoint_of r) as [m|]; [|discriminate Hr].
  simpl. split; [by f_equal | by constructor].
Qed.

(** Not every vacancy is above the average: when the table has a row, the
    result of [get_vacancies_with_higher_salary] is shorter than the
    table. *)
Theorem higher_salary_leaves_one_out w result :
  fst (get_vacancies_with_higher_salary w) = Returned result →
  vacancies (db w) ≠ [] →
  (length result < length (vacancies (db w)))%nat.
Proof.
  unfold get_vacancies_with_higher_salary, mbind, M_bind.
  unfold get_avg_salary, query; simpl.
  destruct (select_avg_stmt (db w)) as [a|e] eqn:Hs; simpl; [|discriminate].
  pose proof (select_avg_stmt_returns _ _ Hs) as Hfit.
  rewrite (select_higher_stmt_fits _ _ Hfit). intros [= <-] Hrows.
  rewrite length_map.
  pose proof (filter_length_le (above a) (vacancies (db w))) as Hle.
  destruct (Nat.eq_dec (length (List.filter (above a) (vacancies (db w))))
                       (length (vacancies (db w)))) as [Heq|]; [|lia].
  exfalso. apply filter_length_forallb in Heq.
  rewrite (select_avg_stmt_fits _ Hfit) in Hs.
  destruct a as [q|].
  2: { destruct (vacancies (db w)) as [|r rows]; [done|].
       simpl in Heq. unfold above in Heq at 1.
       by destruct (midpoint_of r). }
  destruct (all_above_midpoints _ _ Heq) as [Hlen Hall].
  destruct (midpoints (vacancies (db w))) as [|m ms] eqn:Hms;
    [discriminate Hs|].
  injection Hs as <-.
  assert (Hall' : Forall (fun m' => sumZ (m :: ms)
                            < m' * Z.of_nat (length (m :: ms)))
                         (m :: ms)).
  { eapply Forall_impl; [exact Hall|]. intros m' Hlt.
    apply numeric_div_lt in Hlt; [done | simpl length; lia]. }
  destruct (sum_above _ _ _ Hall') as [_ Hstrict].
  specialize (Hstrict ltac:(discriminate)).
  lia.
Qed.

Lemma higher_salary_leaves_one_out_witness :
  let result : list vacancy_tuple :=
    [(Some "SENIOR ENGINEER", Some 3000, Some 4000, Some "http://acme/11")] in
  fst (get_vacancies_with_higher_salary staffed) = Returned result
  ∧ (length result < length (vacancies (db staffed)))%nat.
Proof.
  intros result. split; [reflexivity|].
  apply (higher_salary_leaves_one_out staffed); [reflexivity|].
  vm_compute. discriminate.
Defined.

End AboveAverage.

(** ** The two joins *)

Section Joins.
Implicit Types (d : database) (c : company_row) (v : vacancy_row)
  (cs : list company_row) (vs : list vacancy_row) (w : world).

Lemma join_block_names vs c :
  ∃ n, map joined_name (join_block vs c) = replicate (S n) (c_name c).
Proof.
  unfold join_block.
  destruct (List.filter (fun v => references v c) vs) as [|v l].
  - by exists 0%nat.
  - exists (length l). simpl. f_equal.
    induction l as [|v' l IH]; simpl; [done | by f_equal].
Qed.

Lemma join_block_count vs c nm :
  length (List.filter (counted nm) (join_block vs c))
  = if String.eqb (c_name c) nm
    then length (List.filter (fun v => references v c) vs)
    else 0%nat.
Proof.
  assert (Hmap : ∀ l : list vacancy_row,
            length (List.filter (counted nm) (map (fun v => (c, Some v)) l))
            = if String.eqb (c_name c) nm then length l else 0%nat).
  { unfold counted. induction l as [|v l IH]; simpl.
    - by destruct (String.eqb _ _).
    - destruct (String.eqb (c_name c) nm) eqn:E; simpl in *; by rewrite IH. }
  unfold join_block.
  destruct (List.filter (fun v => references v c) vs) as [|v l].
  - unfold counted. simpl. rewrite andb_false_r. by destruct (String.eqb _ _).
  - apply Hmap.
Qed.

Lemma remove_dups_block (x : string) n (l : list string) :
  x ∉ l → remove_dups (replicate (S n) x ++ l)%list = x :: remove_dups l.
Proof.
  intros Hx. induction n as [|n IH].
  - simpl. destruct (decide_rel _ x l); [done | reflexivity].
  - change (replicate (S (S n)) x ++ l)%list
      with (x :: (replicate (S n) x ++ l)%list).
    change (remove_dups (x :: (replicate (S n) x ++ l)%list))
      with (if decide_rel elem_of x (replicate (S n) x ++ l)%list
            then remove_dups (replicate (S n) x ++ l)%list
            else x :: remove_dups (replicate (S n) x ++ l)%list).
    destruct (decide_rel _ x (replicate (S n) x ++ l)%list) as [_|Hno];
      [exact IH|].
    destruct Hno. simpl. apply list_elem_of_here.
Qed.

Lemma flat_map_cons {A B : Type} (f : A → list B) (x : A) (l : list A) :
  flat_map f (x :: l) = (f x ++ flat_map f l)%list.
Proof. reflexivity. Qed.

Lemma joined_names vs cs y :
  y ∈ map joined_name (flat_map (join_block vs) cs) → y ∈ map c_name cs.
Proof.
  induction cs as [|c cs IH]; [done|].
  rewrite flat_map_cons, map_app, elem_of_app. intros [Hy | Hy].
  - destruct (join_block_names vs c) as [n Hn]. rewrite Hn in Hy.
    apply elem_of_replicate in Hy as [-> _]. apply list_elem_of_here.
  - apply list_elem_of_further. by apply IH.
Qed.

Lemma joined_groups vs cs :
  NoDup (map c_name cs) →
  remove_dups (map joined_name (flat_map (join_block vs) cs))
  = map c_name cs.
Proof.
  induction cs as [|c cs IH]; [done|].
  change (map c_name (c :: cs)) with (c_name c :: map c_name cs).
  rewrite NoDup_cons. intros [Hc Hcs].
  rewrite flat_map_cons, map_app.
  destruct (join_block_names vs c) as [n ->].
  rewrite remove_dups_block, IH; [done | done |].
  intros Hy. by apply Hc, (joined_names vs).
Qed.

Lemma joined_count_none vs cs nm :
  nm ∉ map c_name cs →
  length (List.filter (counted nm) (flat_map (join_block vs) cs)) = 0%nat.
Proof.
  induction cs as [|c cs IH]; intros Hnm; [done|].
  change (map c_name (c :: cs)) with (c_name c :: map c_name cs) in Hnm.
  apply not_elem_of_cons in Hnm as [Hne Hnm].
  rewrite flat_map_cons, List.filter_app, length_app, join_block_count.
  rewrite (IH Hnm).
  destruct (String.eqb_spec (c_name c) nm); [congruence | done].
Qed.

Lemma joined_count vs cs c :
  NoDup (map c_name cs) → c ∈ cs →
  length (List.filter (counted (c_name c)) (flat_map (join_block vs) cs))
  = length (List.filter (fun v => references v c) vs).
Proof.
  induction cs as [|c0 cs IH]; [by intros _ ?%elem_of_nil|].
  change (map c_name (c0 :: cs)) with (c_name c0 :: map c_name cs).
  rewrite NoDup_cons. intros [Hc0 Hcs] Hin.
  rewrite flat_map_cons, List.filter_app, length_app, join_block_count.
  apply elem_of_cons in Hin as [-> | Hin].
  - rewrite String.eqb_refl, (joined_count_none _ _ _ Hc0). lia.
  - rewrite (IH Hcs Hin).
    destruct (String.eqb_spec (c_name c0) (c_name c)) as [Heq|]; [|done].
    destruct Hc0. rewrite Heq. by apply list_elem_of_fmap_2.
Qed.

(** The count statement when no name occurs twice: one pair for each
    company, with the number of vacancies that refer to it. *)
Lemma select_counts_stmt_unique plan d :
  NoDup (map c_name (companies d)) →
  select_counts_stmt plan d
  = Returned
      (arrange plan
         (map (fun c => (c_name c, vacancies_of d c)) (companies d))).
Proof.
  intros Hnames. unfold select_counts_stmt.
  change (left_join d)
    with (flat_map (join_block (vacancies d)) (companies d)).
  change (fun j : company_row * option vacancy_row => c_name (fst j))
    with joined_name.
  cbv zeta. rewrite (joined_groups _ _ Hnames). f_equal. f_equal.
  rewrite map_map. apply map_ext_in. intros c Hin.
  unfold vacancies_of. f_equal.
  change (count_in_group (c_name c)
            (flat_map (join_block (vacancies d)) (companies d)))
    with (Z.of_nat (length (List.filter (counted (c_name c))
            (flat_map (join_block (vacancies d)) (companies d))))).
  f_equal. apply (joined_count _ _ _ Hnames). by apply list_elem_of_In.
Qed.

End Joins.

Section JoinResults.
Implicit Types (d : database) (c : company_row) (v : vacancy_row)
  (cs : list company_row) (vs : list vacancy_row) (w : world).

Lemma references_absent v cs :
  (∀ i, v_company_id v = Some i → i ∉ map c_id cs) →
  List.filter (references v) cs = [].
Proof.
  unfold references. destruct (v_company_id v) as [i|].
  - intros H. specialize (H i eq_refl).
    induction cs as [|c cs IH]; [done|].
    change (map c_id (c :: cs)) with (c_id c :: map c_id cs) in H.
    apply not_elem_of_cons in H as [Hne H]. simpl.
    destruct (Z.eqb_spec (c_id c) i); [congruence | by apply IH].
  - intros _. induction cs as [|c cs IH]; [done | exact IH].
Qed.

(** With unique identifiers a vacancy joins with one company at most. *)
Lemma references_unique v cs :
  NoDup (map c_id cs) →
  List.filter (references v) cs
  = match List.find (references v) cs with
    | Some c => [c]
    | None => []
    end.
Proof.
  induction cs as [|c cs IH]; [done|].
  change (map c_id (c :: cs)) with (c_id c :: map c_id cs).
  rewrite NoDup_cons. intros [Hc Hcs]. simpl.
  destruct (references v c) eqn:Hr; [|by apply IH].
  f_equal. apply references_absent. intros i Hi.
  unfold references in Hr. rewrite Hi in Hr.
  apply Z.eqb_eq in Hr. by rewrite <- Hr.
Qed.

Lemma select_all_stmt_unique plan d :
  NoDup (map c_id (companies d)) →
  select_all_stmt plan d
  = Returned
      (arrange plan
         (omap (fun v => (fun c => listing_of c v) <$> employer d v)
               (vacancies d))).
Proof.
  intros Hids. unfold select_all_stmt, employer. f_equal. f_equal.
  induction (vacancies d) as [|v vs IH]; [done|].
  rewrite flat_map_cons, IH, (references_unique _ _ Hids).
  simpl omap.
  by destruct (List.find (references v) (companies d)).
Qed.

Lemma employer_found d v c :
  employer d v = Some c → c ∈ companies d ∧ v_company_id v = Some (c_id c).
Proof.
  unfold employer. intros H. apply find_some in H as [Hin Hr].
  split; [by apply list_elem_of_In|].
  unfold references in Hr. destruct (v_company_id v) as [i|]; [|done].
  apply Z.eqb_eq in Hr. by rewrite Hr.
Qed.

Lemma employer_exists d v i :
  v_company_id v = Some i → has_company i d = true → is_Some (employer d v).
Proof.
  unfold has_company, employer. intros Hi Hex.
  apply existsb_exists in Hex as (c & Hin & Hc).
  destruct (List.find (references v) (companies d)) as [c'|] eqn:Hf; [eauto|].
  apply (find_none _ _ Hf) in Hin. unfold references in Hin.
  rewrite Hi in Hin. congruence.
Qed.

(** Counting the vacancies company by company, or the companies vacancy
    by vacancy, gives the same number. *)
Lemma count_both_ways vs cs :
  sumZ (map (fun c =>
               Z.of_nat (length (List.filter (fun v => references v c) vs)))
            cs)
  = Z.of_nat (length (flat_map (fun v => List.filter (references v) cs) vs)).
Proof.
  induction vs as [|v vs IH].
  - simpl. induction cs as [|c cs IHc]; [done|]. simpl in *. lia.
  - rewrite flat_map_cons, length_app, Nat2Z.inj_add, <- IH.
    clear IH. induction cs as [|c cs IHc]; [done|].
    simpl. simpl in IHc. destruct (references v c); simpl; lia.
Qed.

End JoinResults.

Section JoinClaims.
Implicit Types (d : database) (c : company_row) (v : vacancy_row) (w : world).

Lemma sumZ_perm (l l' : list Z) : l ≡ₚ l' → sumZ l = sumZ l'.
Proof. induction 1; simpl in *; lia. Qed.

(** When no two companies share a name, as the schema demands,
    [get_companies_and_vacancies_count] returns, in whatever order the
    server chooses, one pair for each company, those without a vacancy
    included, and the number in the pair is the number of vacancies that
    refer to the company; the world stays as it is. *)
Theorem get_companies_and_vacancies_count_per_company plan w :
  NoDup (map c_name (companies (db w))) →
  ∃ counts,
    get_companies_and_vacancies_count plan w = (Returned counts, w)
    ∧ counts ≡ₚ map (fun c => (c_name c, vacancies_of (db w) c))
                    (companies (db w)).
Proof.
  intros Hnames. unfold get_companies_and_vacancies_count, query.
  rewrite (select_counts_stmt_unique _ _ Hnames).
  eexists. split; [reflexivity | apply arrange_perm].
Qed.

Lemma get_companies_and_vacancies_count_per_company_witness :
  get_companies_and_vacancies_count backwards two_companies
  = (Returned [("Globex", 0); ("Acme", 3)], two_companies)
  ∧ ∃ counts,
      get_companies_and_vacancies_count backwards two_companies
      = (Returned counts, two_companies)
      ∧ counts ≡ₚ [("Acme", 3); ("Globex", 0)].
Proof.
  split; [reflexivity|].
  apply (get_companies_and_vacancies_count_per_company backwards
           two_companies).
  apply reachable_invariant.
  unfold two_companies, staffed, with_acme. repeat constructor.
Defined.

(** With unique company identifiers [get_all_vacancies] returns, in
    whatever order the server chooses, one tuple for each vacancy whose
    company is there, made of the name of that company and of the columns
    of the vacancy; a vacancy without a company gives no tuple; the world
    stays as it is. *)
Theorem get_all_vacancies_per_vacancy plan w :
  wf (db w) →
  ∃ listing,
    get_all_vacancies plan w = (Returned listing, w)
    ∧ listing ≡ₚ omap (fun v => (fun c => listing_of c v)
                                  <$> employer (db w) v)
                      (vacancies (db w)).
Proof.
  intros [Hids _]. unfold get_all_vacancies, query.
  rewrite (select_all_stmt_unique _ _ Hids).
  eexists. split; [reflexivity | apply arrange_perm].
Qed.

Lemma get_all_vacancies_per_vacancy_witness :
  ∃ listing,
    get_all_vacancies backwards staffed = (Returned listing, staffed)
    ∧ listing ≡ₚ [("Acme", Some "Engineer", Some 1000, Some 2000,
                   Some "http://acme/10");
                  ("Acme", Some "SENIOR ENGINEER", Some 3000, Some 4000,
                   Some "http://acme/11");
                  ("Acme", Some "abc", Some 2000, Some 3001,
                   Some "http://acme/12")].
Proof.
  apply (get_all_vacancies_per_vacancy backwards staffed).
  apply reachable_invariant. unfold staffed, with_acme. repeat constructor.
Defined.

(** In a world that the writers have built, every vacancy that names a
    company is in the result of [get_all_vacancies], with the name of the
    company of that identifier. *)
Theorem get_all_vacancies_lists_employed plan w v i :
  reachable w →
  v ∈ vacancies (db w) →
  v_company_id v = Some i →
  ∃ c result,
    c ∈ companies (db w) ∧ c_id c = i
    ∧ fst (get_all_vacancies plan w) = Returned result
    ∧ listing_of c v ∈ result.
Proof.
  intros Hreach Hin Hi.
  destruct (reachable_invariant _ Hreach) as ([Hids _] & _ & Href & _).
  destruct (employer_exists (db w) v i Hi (Href v i Hin Hi)) as [c Hc].
  destruct (employer_found _ _ _ Hc) as [Hcin Hci].
  exists c. eexists. split; [done|]. split; [congruence|].
  unfold get_all_vacancies, query; simpl.
  rewrite (select_all_stmt_unique _ _ Hids). split; [reflexivity|].
  rewrite (arrange_perm plan).
  apply list_elem_of_omap. exists v. split; [done|]. by rewrite Hc.
Qed.

Lemma get_all_vacancies_lists_employed_witness :
  ∃ c result,
    c ∈ companies (db staffed) ∧ c_id c = 1
    ∧ fst (get_all_vacancies backwards staffed) = Returned result
    ∧ listing_of c {| v_id := 11; v_company_id := Some 1;
                      v_name := Some "SENIOR ENGINEER";
                      v_salary_from := Some 3000; v_salary_to := Some 4000;
                      v_currency := Some "RUR";
                      v_url := Some "http://acme/11" |} ∈ result.
Proof.
  apply (get_all_vacancies_lists_employed backwards staffed).
  - unfold staffed, with_acme. repeat constructor.
  - vm_compute. repeat constructor.
  - reflexivity.
Defined.

Lemma length_flat_map_map {A B C : Type} (f : A → list B) (g : A → B → C)
    (l : list A) :
  length (flat_map (fun a => map (g a) (f a)) l) = length (flat_map f l).
Proof.
  induction l as [|a l IH]; [done|].
  by rewrite !flat_map_cons, !length_app, length_map, IH.
Qed.

(** The counts add up: with unique company names, the numbers that
    [get_companies_and_vacancies_count] returns sum to the number of tuples
    that [get_all_vacancies] returns. *)
Theorem counts_add_up plan plan' w counts listing :
  NoDup (map c_name (companies (db w))) →
  fst (get_companies_and_vacancies_count plan w) = Returned counts →
  fst (get_all_vacancies plan' w) = Returned listing →
  sumZ (map snd counts) = Z.of_nat (length listing).
Proof.
  intros Hnames. unfold get_companies_and_vacancies_count, get_all_vacancies.
  unfold query; simpl. rewrite (select_counts_stmt_unique _ _ Hnames).
  unfold select_all_stmt. intros [= <-] [= <-].
  rewrite (sumZ_perm _ _ (Permutation_map snd (arrange_perm plan _))).
  rewrite (Permutation_length (arrange_perm plan' _)).
  rewrite map_map; simpl. unfold vacancies_of.
  rewrite count_both_ways.
  by rewrite (length_flat_map_map _ (fun v c => listing_of c v)).
Qed.

Lemma counts_add_up_witness :
  sumZ (map snd [("Globex", 0); ("Acme", 3)])
  = Z.of_nat (length (vacancies (db two_companies))).
Proof.
  apply (counts_add_up backwards as_computed two_companies
           [("Globex", 0); ("Acme", 3)]
           (map (listing_of {| c_id := 1; c_name := "Acme";
                               c_url := Some "http://acme" |})
                (vacancies (db two_companies)))).
  - apply reachable_invariant.
    unfold two_companies, staffed, with_acme. repeat constructor.
  - reflexivity.
  - reflexivity.
Defined.

End JoinClaims.

(** ** Writing, then counting *)

Section WriteThenCount.
Implicit Types (company vacancy : dict) (company_id : pyval) (w : world)
  (c : company_row).

Lemma vacancies_of_added d d' r c :
  vacancies d' = (vacancies d ++ [r])%list →
  vacancies_of d' c
  = vacancies_of d c + (if references r c then 1 else 0).
Proof.
  unfold vacancies_of. intros ->.
  rewrite List.filter_app, length_app, Nat2Z.inj_add. simpl.
  by destruct (references r c).
Qed.

Lemma references_ident r c o :
  o = v_company_id r →
  references r c = bool_decide (o = Some (c_id c)).
Proof.
  intros ->. unfold references. destruct (v_company_id r) as [i|].
  - destruct (Z.eqb_spec (c_id c) i) as [->|Hne].
    + by rewrite bool_decide_eq_true_2.
    + rewrite bool_decide_eq_false_2; [done | congruence].
  - by rewrite bool_decide_eq_false_2.
Qed.

Lemma filter_none {A : Type} (f : A → bool) (l : list A) :
  (∀ x, x ∈ l → f x = false) → List.filter f l = [].
Proof.
  induction l as [|x l IH]; [done|]. intros H. simpl.
  rewrite (H x) by apply list_elem_of_here.
  apply IH. intros y Hy. apply H. by apply list_elem_of_further.
Qed.

(** The name of the row that a company insert adds is the name parameter
    as the column takes it. *)
Lemma insert_company_stmt_name p_id p_name p_url d d' r :
  insert_company_stmt p_id p_name p_url d = Returned d' →
  companies d' = (companies d ++ [r])%list →
  as_varchar 255 p_name = Returned (Some (c_name r)).
Proof.
  unfold insert_company_stmt. intros H Hc. do 7 next_step H.
  apply not_null_inv in E5 as ->.
  destruct (has_company _ d).
  { injection H as <-. apply (f_equal length) in Hc.
    rewrite length_app in Hc. simpl in Hc. lia. }
  destruct (has_company_name _ d); [discriminate H|].
  injection H as <-. simpl in Hc. apply app_inj_tail in Hc as [_ <-].
  simpl. by eapply as_varchar_steps.
Qed.

Lemma insert_company_name company w r :
  companies (db (snd (insert_company company w)))
  = (companies (db w) ++ [r])%list →
  ∃ p_name, company !! "name" = Some p_name
            ∧ as_varchar 255 p_name = Returned (Some (c_name r)).
Proof.
  assert (Hsame : companies (db w) ≠ (companies (db w) ++ [r])%list).
  { intros Hc. apply (f_equal length) in Hc.
    rewrite length_app in Hc. simpl in Hc. lia. }
  unfold insert_company, mbind, M_bind, lift, getitem, execute.
  destruct (company !! "id") as [p_id|]; simpl; [|done].
  destruct (company !! "name") as [p_name|]; simpl; [|done].
  destruct (company !! "alternate_url") as [p_url|]; simpl; [|done].
  destruct (insert_company_stmt p_id p_name p_url (db w)) as [d'|e] eqn:Hstmt;
    simpl; [|done].
  intros Hc. exists p_name. split; [done|].
  by eapply insert_company_stmt_name.
Qed.

(** A vacancy that [insert_vacancy] has stored counts for its company: in
    the counts that [get_companies_and_vacancies_count] returns next,
    whatever their order, the count of the company that the call named has
    gone up by one and every other count is what it was. *)
Theorem insert_vacancy_counted plan w vacancy company_id :
  NoDup (map c_name (companies (db w))) →
  vacancies (db (snd (insert_vacancy vacancy company_id w)))
  ≠ vacancies (db w) →
  ∃ counts,
    fst (get_companies_and_vacancies_count plan
           (snd (insert_vacancy vacancy company_id w)))
    = Returned counts
    ∧ counts ≡ₚ
        map (fun c =>
               (c_name c,
                vacancies_of (db w) c
                + (if bool_decide (ident company_id = Some (c_id c))
                   then 1 else 0)))
            (companies (db w)).
Proof.
  intros Hnames Hnew.
  destruct (insert_vacancy_step vacancy company_id w)
    as (Hc & _ & [Hv | (r & s & _ & _ & Hid & _ & _ & _ & Hv)]); [done|].
  unfold get_companies_and_vacancies_count, query; simpl.
  rewrite select_counts_stmt_unique by by rewrite Hc.
  eexists. split; [reflexivity|]. rewrite (arrange_perm plan).
  rewrite Hc.
  replace (map (fun c => (c_name c,
                  vacancies_of (db (snd (insert_vacancy vacancy company_id w)))
                    c)) (companies (db w)))
    with (map (fun c =>
                 (c_name c,
                  vacancies_of (db w) c
                  + (if bool_decide (ident company_id = Some (c_id c))
                     then 1 else 0)))
              (companies (db w))); [done|].
  apply map_ext. intros c. f_equal.
  rewrite (vacancies_of_added _ _ _ _ Hv).
  by rewrite (references_ident r c _ Hid).
Qed.

Lemma insert_vacancy_counted_witness :
  ∃ counts,
    fst (get_companies_and_vacancies_count backwards
           (snd (insert_vacancy engineer (PyInt 1) with_acme)))
    = Returned counts
    ∧ counts ≡ₚ [("Acme", 0 + 1)].
Proof.
  apply (insert_vacancy_counted backwards with_acme engineer (PyInt 1)).
  - apply reachable_invariant. unfold with_acme. repeat constructor.
  - vm_compute. discriminate.
Defined.

(** A company that [insert_company] has stored comes into the counts with
    zero vacancies: in a world that the writers have built, the counts
    after the call are, whatever the order of either result, the counts
    before it and one pair more, made of the name of the record as the
    column takes it and of zero. No vacancy can be waiting for the
    company. *)
Theorem insert_company_counted plan plan' w company :
  reachable w →
  companies (db (snd (insert_company company w))) ≠ companies (db w) →
  ∃ counts counts' p_name nm,
    company !! "name" = Some p_name
    ∧ as_varchar 255 p_name = Returned (Some nm)
    ∧ fst (get_companies_and_vacancies_count plan w) = Returned counts
    ∧ fst (get_companies_and_vacancies_count plan'
             (snd (insert_company company w)))
      = Returned counts'
    ∧ counts' ≡ₚ (nm, 0) :: counts.
Proof.
  intros Hreach Hnew.
  pose proof (reachable_invariant _ (reachable_company company w Hreach))
    as (_ & Hnames' & _).
  destruct (reachable_invariant _ Hreach) as (_ & Hnames & Href & _).
  destruct (insert_company_step company w)
    as (Hv & _ & [Hc | (r & Hfresh & _ & Hc)]); [done|].
  destruct (insert_company_name company w r Hc) as (p_name & Hkey & Hnm).
  unfold get_companies_and_vacancies_count, query; simpl.
  rewrite !select_counts_stmt_unique by done.
  eexists _, _, p_name, (c_name r).
  split; [done|]. split; [done|]. split; [reflexivity|].
  split; [reflexivity|].
  rewrite !arrange_perm, Hc, map_app. simpl.
  rewrite <- Permutation_cons_append. apply Permutation_cons.
  - f_equal. unfold vacancies_of. rewrite Hv.
    replace (List.filter (fun v => references v r) (vacancies (db w)))
      with (@nil vacancy_row); [done|].
    symmetry. apply filter_none. intros v Hin. unfold references.
    destruct (v_company_id v) as [i|] eqn:Hi; [|done].
    apply Z.eqb_neq. intros Heq.
    pose proof (Href v i Hin Hi). congruence.
  - apply Permutation_refl'. apply map_ext. intros c.
    unfold vacancies_of. by rewrite Hv.
Qed.

Lemma insert_company_counted_witness :
  ∃ counts counts' p_name nm,
    globex !! "name" = Some p_name
    ∧ as_varchar 255 p_name = Returned (Some nm)
    ∧ fst (get_companies_and_vacancies_count as_computed staffed)
      = Returned counts
    ∧ fst (get_companies_and_vacancies_count backwards
             (snd (insert_company globex staffed)))
      = Returned counts'
    ∧ counts' ≡ₚ (nm, 0) :: counts.
Proof.
  apply (insert_company_counted as_computed backwards staffed globex).
  - unfold staffed, with_acme. repeat constructor.
  - vm_compute. discriminate.
Defined.

End WriteThenCount.

(** ** More on the keyword search *)

Section KeywordMore.
Implicit Types (keyword k s : string) (c : ascii) (ts : list tok)
  (w : world).

(** For text in ASCII and a keyword made of plain characters the search is
    the substring search of its description: when the keyword and the
    names in the table are ASCII, the call returns, without touching the
    world, the tuples of exactly the rows whose name has a piece that
    equals the keyword up to the case of its letters. *)
Theorem get_vacancies_with_keyword_substring w keyword :
  plain_string keyword = true →
  ascii_text keyword = true →
  forallb ascii_named (vacancies (db w)) = true →
  ∃ result,
    get_vacancies_with_keyword keyword w = (Returned result, w)
    ∧ ∀ t, t ∈ result ↔
           ∃ r pre mid post,
             r ∈ vacancies (db w) ∧ t = tuple_of r
             ∧ v_name r = Some (pre +:+ mid +:+ post)
             ∧ lower_string mid = lower_string keyword.
Proof.
  intros Hk _ _. eexists. split; [by apply get_vacancies_with_keyword_plain|].
  intros t. rewrite list_elem_of_fmap. split.
  - intros (r & -> & Hin). apply list_elem_of_In, filter_In in Hin as [Hin Hr].
    unfold named_like in Hr. destruct (v_name r) as [s|] eqn:Hs; [|done].
    apply occurs_nocase_spec in Hr as (pre & mid & post & -> & Hl).
    exists r, pre, mid, post. by rewrite list_elem_of_In.
  - intros (r & pre & mid & post & Hin & -> & Hs & Hl).
    exists r. split; [done|]. apply list_elem_of_In, filter_In.
    split; [by apply list_elem_of_In|].
    unfold named_like. rewrite Hs. apply occurs_nocase_spec. eauto.
Qed.

Lemma get_vacancies_with_keyword_substring_witness :
  ∃ result,
    get_vacancies_with_keyword "Engineer" staffed = (Returned result, staffed)
    ∧ ∀ t, t ∈ result ↔
           ∃ r pre mid post,
             r ∈ vacancies (db staffed) ∧ t = tuple_of r
             ∧ v_name r = Some (pre +:+ mid +:+ post)
             ∧ lower_string mid = lower_string "Engineer".
Proof. apply get_vacancies_with_keyword_substring; reflexivity. Defined.

Lemma occurs_nocase_empty s : occurs_nocase EmptyString s = true.
Proof. by destruct s. Qed.

(** The empty keyword selects every vacancy that has a name, and leaves
    out those whose name is NULL. *)
Theorem get_vacancies_with_keyword_empty w :
  get_vacancies_with_keyword EmptyString w
  = (Returned (map tuple_of
                 (List.filter (fun r => bool_decide (is_Some (v_name r)))
                              (vacancies (db w)))), w).
Proof.
  rewrite get_vacancies_with_keyword_plain by reflexivity.
  f_equal. f_equal. f_equal. apply filter_ext. intros r.
  unfold named_like. destruct (v_name r); [apply occurs_nocase_empty | done].
Qed.

End KeywordMore.

Section KeywordCase.
Implicit Types (k s : string) (c : ascii) (ts : list tok) (w : world).

(** Folding the case neither makes nor unmakes a special character. *)
Lemma lower_percent c : lower c = "%"%char → c = "%"%char.
Proof.
  destruct c as [[] [] [] [] [] [] [] []]; vm_compute; intros H;
    (reflexivity || discriminate H).
Qed.

Lemma lower_underscore c : lower c = "_"%char → c = "_"%char.
Proof.
  destruct c as [[] [] [] [] [] [] [] []]; vm_compute; intros H;
    (reflexivity || discriminate H).
Qed.

Lemma lower_backslash c : lower c = "\"%char → c = "\"%char.
Proof.
  destruct c as [[] [] [] [] [] [] [] []]; vm_compute; intros H;
    (reflexivity || discriminate H).
Qed.

Lemma lower_nul c : lower c = Ascii.zero → c = Ascii.zero.
Proof.
  destruct c as [[] [] [] [] [] [] [] []]; vm_compute; intros H;
    (reflexivity || discriminate H).
Qed.

Lemma parse_like_ordinary c s :
  c ≠ "%"%char → c ≠ "_"%char → c ≠ "\"%char →
  parse_like (String c s) = cons (TLit c) <$> parse_like s.
Proof.
  intros H1 H2 H3.
  destruct c as [[] [] [] [] [] [] [] []]; try reflexivity;
    exfalso; (by apply H1) || (by apply H2) || (by apply H3).
Qed.

(** Two characters with one fold are special together. *)
Lemma lower_same_kind c c' (x : ascii) :
  (∀ y, lower y = x → y = x) → lower x = x →
  lower c = lower c' → c = x → c' = x.
Proof.
  intros Hx Hfix Heq ->. apply Hx. by rewrite <- Heq.
Qed.

Lemma parse_like_nocase n k k' :
  (String.length k ≤ n)%nat →
  lower_string k = lower_string k' →
  match parse_like k, parse_like k' with
  | Some ts, Some ts' => Forall2 tok_nocase ts ts'
  | None, None => True
  | _, _ => False
  end.
Proof.
  revert k k'. induction n as [|n IH]; intros k k' Hlen Hl.
  { destruct k; [|simpl in Hlen; lia].
    destruct k'; [|discriminate Hl]. simpl. constructor. }
  destruct k as [|c k]; [destruct k'; [simpl; constructor | discriminate Hl]|].
  destruct k' as [|c' k']; [discriminate Hl|].
  simpl in Hl, Hlen. injection Hl as Hc Hl.
  assert (Hrest : match parse_like k, parse_like k' with
                  | Some ts, Some ts' => Forall2 tok_nocase ts ts'
                  | None, None => True
                  | _, _ => False
                  end) by (apply IH; [lia | done]).
  destruct (ascii_dec c "%") as [->|H1].
  { rewrite (lower_percent c') by done.
    change (match cons TAny <$> parse_like k, cons TAny <$> parse_like k' with
            | Some ts, Some ts' => Forall2 tok_nocase ts ts'
            | None, None => True
            | _, _ => False
            end).
    destruct (parse_like k), (parse_like k'); simpl; try done.
    constructor; [constructor | done]. }
  destruct (ascii_dec c "_") as [->|H2].
  { rewrite (lower_underscore c') by done.
    change (match cons TOne <$> parse_like k, cons TOne <$> parse_like k' with
            | Some ts, Some ts' => Forall2 tok_nocase ts ts'
            | None, None => True
            | _, _ => False
            end).
    destruct (parse_like k), (parse_like k'); simpl; try done.
    constructor; [constructor | done]. }
  destruct (ascii_dec c "\") as [->|H3].
  { rewrite (lower_backslash c') by done.
    destruct k as [|e k]; [destruct k'; [done | discriminate Hl]|].
    destruct k' as [|e' k']; [discriminate Hl|].
    simpl in Hl, Hlen. injection Hl as He Hl.
    assert (Hrest' : match parse_like k, parse_like k' with
                     | Some ts, Some ts' => Forall2 tok_nocase ts ts'
                     | None, None => True
                     | _, _ => False
                     end) by (apply IH; [lia | done]).
    change (match cons (TLit e) <$> parse_like k,
                  cons (TLit e') <$> parse_like k' with
            | Some ts, Some ts' => Forall2 tok_nocase ts ts'
            | None, None => True
            | _, _ => False
            end).
    destruct (parse_like k), (parse_like k'); simpl; try done.
    constructor; [by constructor | done]. }
  assert (c' ≠ "%"%char)
    by (intros ->; apply H1, lower_percent; by rewrite Hc).
  assert (c' ≠ "_"%char)
    by (intros ->; apply H2, lower_underscore; by rewrite Hc).
  assert (c' ≠ "\"%char)
    by (intros ->; apply H3, lower_backslash; by rewrite Hc).
  rewrite !parse_like_ordinary by done.
  destruct (parse_like k), (parse_like k'); simpl; try done.
  constructor; [by constructor | done].
Qed.

Lemma like_match_nocase ts ts' :
  Forall2 tok_nocase ts ts' → ∀ s, like_match ts s = like_match ts' s.
Proof.
  induction 1 as [|t t' ts ts' Ht _ IH]; [done|].
  destruct Ht as [| |c c' Hc]; intros s.
  - induction s as [|x s IHs].
    + rewrite !like_match_any. by rewrite IH.
    + rewrite (like_match_any ts), (like_match_any ts'). by rewrite IH, IHs.
  - destruct s; simpl; [done | apply IH].
  - destruct s as [|x s]; simpl; [done|].
    unfold eq_nocase. by rewrite Hc, IH.
Qed.

Lemma has_nul_nocase k k' :
  lower_string k = lower_string k' → has_nul k = has_nul k'.
Proof.
  revert k'. induction k as [|c k IH]; intros [|c' k'] Hl;
    try discriminate Hl; [done|].
  simpl in Hl. injection Hl as Hc Hl. simpl. rewrite (IH _ Hl). f_equal.
  destruct (Ascii.eqb_spec c Ascii.zero) as [->|Hne].
  - symmetry. apply Ascii.eqb_eq. apply lower_nul. by rewrite <- Hc.
  - symmetry. apply Ascii.eqb_neq. intros ->. apply Hne, lower_nul.
    by rewrite Hc.
Qed.

Lemma lower_string_app k s :
  lower_string (k +:+ s) = lower_string k +:+ lower_string s.
Proof. induction k as [|c k IH]; simpl; [done | by rewrite IH]. Qed.

(** The search does not tell the case of the keyword: two keywords that
    are equal up to the case of their letters give the same answer,
    whatever other characters they hold. *)
Theorem get_vacancies_with_keyword_nocase w k k' :
  lower_string k = lower_string k' →
  get_vacancies_with_keyword k w = get_vacancies_with_keyword k' w.
Proof.
  intros Hl.
  assert (Hpat : lower_string ("%" +:+ k +:+ "%")
                 = lower_string ("%" +:+ k' +:+ "%")).
  { by rewrite !lower_string_app, Hl. }
  unfold get_vacancies_with_keyword, query, select_keyword_stmt, adapt.
  rewrite (has_nul_nocase _ _ Hpat).
  destruct (has_nul ("%" +:+ k' +:+ "%")); [done|].
  unfold mbind at 1 3, outcome_bind at 1 3. f_equal. f_equal.
  induction (vacancies (db w)) as [|r rows IH]; [done|].
  simpl select_where. rewrite IH. f_equal.
  unfold ilike. destruct (v_name r) as [s|]; [|done].
  pose proof (parse_like_nocase _ _ _ (le_n _) Hpat) as Hparse.
  destruct (parse_like ("%" +:+ k +:+ "%")) as [ts|],
           (parse_like ("%" +:+ k' +:+ "%")) as [ts'|]; try done.
  by rewrite (like_match_nocase _ _ Hparse).
Qed.

Lemma get_vacancies_with_keyword_nocase_witness :
  get_vacancies_with_keyword "ENGINEER" staffed
  = get_vacancies_with_keyword "engineer" staffed.
Proof. apply get_vacancies_with_keyword_nocase. reflexivity. Defined.

End KeywordCase.

(** ** Well-formed records are stored as given *)

Section Stored.
Implicit Types (company vacancy salary : dict) (w : world).

Lemma as_int4_fits n : in_int4 n = true → to_int4 (LNum n) = Returned (Some n).
Proof. intros H. unfold to_int4, int4_range. by rewrite H. Qed.

Lemma to_varchar_fits n s :
  (String.length s ≤ n)%nat → to_varchar n (LStr s) = Returned (Some s).
Proof.
  intros H. unfold to_varchar, varchar_fit; simpl.
  apply Nat.leb_le in H. by rewrite H.
Qed.

(** A company record with an integer identifier in the range of [INT], a
    name of at most 255 characters and a URL, identifier and name both
    new, is stored as one row with these three values, at the end of the
    table. *)
Theorem insert_company_stores w company i nm u :
  company !! "id" = Some (PyInt i) →
  company !! "name" = Some (PyStr nm) →
  company !! "alternate_url" = Some (PyStr u) →
  in_int4 i = true →
  fits_varchar 255 nm →
  has_nul u = false →
  has_company i (db w) = false →
  has_company_name nm (db w) = false →
  insert_company company w
  = (Returned tt,
     {| db := {| companies := companies (db w) ++
                   [{| c_id := i; c_name := nm; c_url := Some u |}];
                 vacancies := vacancies (db w) |};
        stdout := stdout w |}).
Proof.
  intros Hid Hname Hurl Hi [Hnul Hlen] Hu Hfresh Hnew.
  unfold insert_company, mbind, M_bind, lift, getitem, execute.
  rewrite Hid, Hname, Hurl; simpl.
  unfold insert_company_stmt, adapt. rewrite Hnul, Hu.
  cbn [mbind outcome_bind].
  rewrite (as_int4_fits _ Hi). cbn [mbind outcome_bind].
  rewrite (to_varchar_fits _ _ Hlen). cbn [mbind outcome_bind not_null].
  by rewrite Hfresh, Hnew.
Qed.

Lemma insert_company_stores_witness :
  insert_company globex staffed
  = (Returned tt,
     {| db := {| companies := companies (db staffed) ++
                   [{| c_id := 2; c_name := "Globex";
                       c_url := Some "http://globex" |}];
                 vacancies := vacancies (db staffed) |};
        stdout := stdout staffed |}).
Proof.
  apply (insert_company_stores staffed globex 2 "Globex" "http://globex");
    try reflexivity.
  split; [reflexivity | simpl; lia].
Defined.

Lemma truthy_dict_with salary key x :
  salary !! key = Some x → truthy (PyDict salary) = true.
Proof.
  intros H. simpl. apply negb_true_iff, Nat.eqb_neq.
  intros Hsize. apply map_size_empty_iff in Hsize. subst salary.
  by rewrite lookup_empty in H.
Qed.

(** A vacancy record with an integer identifier, a name, a URL and a
    salary made of two integer bounds and a non-empty currency, all within
    the sizes of their columns, sent with the identifier of a company that
    is there, under an identifier that is new, is stored as one row with
    exactly these values; nothing is logged. *)
Theorem insert_vacancy_stores w vacancy salary i cid nm u a b cur :
  vacancy !! "id" = Some (PyInt i) →
  vacancy !! "name" = Some (PyStr nm) →
  vacancy !! "alternate_url" = Some (PyStr u) →
  vacancy !! "salary" = Some (PyDict salary) →
  salary !! "from" = Some (PyInt a) →
  salary !! "to" = Some (PyInt b) →
  salary !! "currency" = Some (PyStr cur) →
  in_int4 i = true → in_int4 cid = true →
  in_int4 a = true → in_int4 b = true →
  fits_varchar 255 nm → has_nul u = false →
  fits_varchar 10 cur → cur ≠ EmptyString →
  has_vacancy i (db w) = false →
  has_company cid (db w) = true →
  insert_vacancy vacancy (PyInt cid) w
  = (Returned tt,
     {| db := {| companies := companies (db w);
                 vacancies := vacancies (db w) ++
                   [{| v_id := i; v_company_id := Some cid;
                       v_name := Some nm;
                       v_salary_from := Some a; v_salary_to := Some b;
                       v_currency := Some cur; v_url := Some u |}] |};
        stdout := stdout w |}).
Proof.
  intros Hid Hname Hurl Hsal Hfrom Hto Hcur Hi Hcid Ha Hb
         [Hnm Hnmlen] Hu [Hcu Hculen] Hne Hfresh Hcomp.
  unfold insert_vacancy.
  assert (Hreq : forallb (contains vacancy) required_keys = true).
  { apply required_present. rewrite Hid, Hname, Hurl. eauto. }
  rewrite Hreq; simpl.
  assert (Hpor : por (get vacancy "salary") (PyDict ∅) = PyDict salary).
  { unfold get. rewrite Hsal; simpl. unfold por.
    by rewrite (truthy_dict_with _ _ _ Hfrom). }
  rewrite Hpor. cbn [attr_get].
  unfold get at 1 2 3. rewrite Hfrom, Hto, Hcur. cbn [default].
  unfold try_except, mbind, M_bind, lift, getitem, execute, id.
  rewrite Hid, Hname, Hurl. cbv beta iota.
  rewrite !por_int, (por_str _ _ Hne).
  unfold insert_vacancy_stmt, adapt. rewrite Hnm, Hu, Hcu.
  cbn [mbind outcome_bind].
  rewrite !as_int4_fits by done. cbn [mbind outcome_bind].
  rewrite !to_varchar_fits by done. cbn [mbind outcome_bind not_null].
  by rewrite Hfresh, Hcomp.
Qed.

Lemma insert_vacancy_stores_witness :
  insert_vacancy engineer (PyInt 1) with_acme
  = (Returned tt,
     {| db := {| companies := companies (db with_acme);
                 vacancies := vacancies (db with_acme) ++
                   [{| v_id := 10; v_company_id := Some 1;
                       v_name := Some "Engineer";
                       v_salary_from := Some 1000; v_salary_to := Some 2000;
                       v_currency := Some "USD";
                       v_url := Some "http://acme/10" |}] |};
        stdout := stdout with_acme |}).
Proof.
  apply (insert_vacancy_stores with_acme engineer salary_usd);
    try reflexivity; try (split; [reflexivity | simpl; lia]).
  discriminate.
Defined.

End Stored.
